(** * Rephrase refactoring of gauge steps (refactor.go)

    A shallow embedding of [refactor.go]: the order map between the
    arguments of the old and the new step, the rewrite of specifications
    and concepts, the persistence of the changed documents and the
    dialogue with the runner.

    Conventions.
    - A Go [int] is a [Z]; every integer below is an index or a length of
      a slice, so no 64-bit wrap-around can occur.
    - A Go [(T, error)] result is [error + T]; an error is its message.
    - A run-time panic (index out of range, nil dereference) is [None].
    - A Go [map] read [m[k]] yields the zero value for an absent key.
    - The order of a [range] over a Go map is not fixed by the language:
      it is a parameter of the functions that iterate over a map. *)

From stdpp Require Import gmap strings list fin_maps.
From Stdlib Require Import ZArith.

Local Open Scope Z_scope.

(** ** Go primitives used by the file *)

Module Go.

Definition error : Type := string.

(** [len(s)] *)
Definition len {A} (s : list A) : Z := Z.of_nat (length s).

(** [s[i]], which panics outside [0 <= i < len(s)] *)
Definition index {A} (s : list A) (i : Z) : option A :=
  if decide (0 ≤ i < len s) then s !! Z.to_nat i else None.

(** [m[k]] on a [map[int]int] *)
Definition map_get (m : gmap Z Z) (k : Z) : Z := default 0 (m !! k).

(** [m[k]] on a map with [bool] values *)
Definition flag_get `{Countable K} (m : gmap K bool) (k : K) : bool :=
  default false (m !! k).

(** [strings.Join(elems, sep)] *)
Fixpoint Join (elems : list string) (sep : string) : string :=
  match elems with
  | [] => ""
  | [e] => e
  | e :: rest => e +:+ sep +:+ Join rest sep
  end.

End Go.

Import Go.

(** ** Steps and their arguments *)

(** Modelled from the spec: the type [stepArg] and its method [String] are
    declared outside refactor.go.  An argument is represented by the token
    text that [arg.String()] renders, the only observation refactor.go
    makes of it. *)
Record stepArg : Type := mkArg { argString : string }.

Inductive ParameterType : Type :=
| Parameter_Static | Parameter_Dynamic | Parameter_Special | Parameter_Table.

(** [gauge_messages.Parameter] ([Parameter] is a reserved word here) *)
Record ProtoParameter : Type := mkParameter {
  parameterType : ParameterType;
  Value : string;
  Name : string
}.

(** [gauge_messages.Fragment]: a text fragment or a parameter fragment *)
Inductive Fragment : Type :=
| Fragment_Text (text : string)
| Fragment_Parameter (p : ProtoParameter).

(** [step], with the fields that refactor.go and the rename read; the
    items of a concept step are kept apart, in [conceptStepT] below. *)
Record step : Type := mkStep {
  lineText : string;
  value : string;
  args : list stepArg;
  fragments : list Fragment;
  isConceptStep : bool
}.

Record rephraseRefactorer : Type := mkAgent {
  oldStep : step;
  newStep : step;
  isConcept : bool
}.

(** ** The order of arguments *)

(** [SliceIndex]: the loop [for i := 0; i < limit; i++], unrolled over the
    number [n] of iterations left. *)
Fixpoint SliceIndex_loop (n : nat) (i : Z) (predicate : Z → option bool)
  : option Z :=
  match n with
  | O => Some (-1)
  | S n' =>
      b ← predicate i;
      if b : bool then Some i else SliceIndex_loop n' (i + 1) predicate
  end.

Definition SliceIndex (limit : Z) (predicate : Z → option bool) : option Z :=
  SliceIndex_loop (Z.to_nat limit) 0 predicate.

(** The closure handed to [SliceIndex] by [createOrderOfArgs]. *)
Definition sameToken (oldArgs : list stepArg) (arg : stepArg) (i : Z)
  : option bool :=
  a ← index oldArgs i;
  Some (bool_decide (argString a = argString arg)).

(** The [range] over [agent.newStep.args], from index [i] on. *)
Fixpoint createOrderOfArgs_range (oldArgs : list stepArg) (i : Z)
    (newArgs : list stepArg) (orderMap : gmap Z Z) : option (gmap Z Z) :=
  match newArgs with
  | [] => Some orderMap
  | arg :: rest =>
      v ← SliceIndex (len oldArgs) (sameToken oldArgs arg);
      createOrderOfArgs_range oldArgs (i + 1) rest (<[i := v]> orderMap)
  end.

Definition createOrderOfArgs (agent : rephraseRefactorer)
  : option (gmap Z Z) :=
  createOrderOfArgs_range (args (oldStep agent)) 0 (args (newStep agent)) ∅.

(** What the claim calls the value for a new argument: the least old index
    with an equal token, or the sentinel when there is none. *)
Definition firstMatch (oldArgs : list stepArg) (arg : stepArg) (v : Z)
  : Prop :=
  (v = -1 ∧ ∀ a, a ∈ oldArgs → argString a ≠ argString arg)
  ∨ (0 ≤ v < len oldArgs
     ∧ (∃ a, oldArgs !! Z.to_nat v = Some a ∧ argString a = argString arg)
     ∧ ∀ j a, (j < Z.to_nat v)%nat → oldArgs !! j = Some a →
              argString a ≠ argString arg).

(** ** Documents, results and messages *)

Module specification.
(** Modelled from the spec: the type [specification] is declared outside
    refactor.go.  A specification document is its file name and the step
    occurrences of its tree, in document order. *)
Record t : Type := mk { fileName : string; steps : list step }.
End specification.

(** An item of a concept body: a step occurrence or an item of another
    kind ([item.kind() == stepKind] tells them apart). *)
Inductive item : Type :=
| stepItem (s : step)
| otherItem (text : string).

Record conceptStepT : Type := mkConceptStep { items : list item }.

Module concept.
Record t : Type := mk { conceptStep : conceptStepT; fileName : string }.
End concept.

Record warning : Type := mkWarning { message : string }.

Record parseResult : Type := mkParseResult {
  ok : bool;
  error : Go.error;
  warnings : list warning
}.

Record refactoringResult : Type := mkResult {
  success : bool;
  specsChanged : list string;
  conceptsChanged : list string;
  runnerFilesChanged : list string;
  errors : list string;
  result_warnings : list string
}.

Record stepValue : Type := mkStepValue {
  sv_args : list string;
  sv_stepValue : string;
  sv_parameterizedStepValue : string
}.

Record ProtoStepValue : Type := mkProtoStepValue {
  StepValue : string;
  ParameterizedStepValue : string;
  Parameters : list string
}.

Record ParameterPosition : Type := mkParameterPosition {
  NewPosition : Z;
  OldPosition : Z
}.

Record RefactorRequest : Type := mkRefactorRequest {
  OldStepValue : ProtoStepValue;
  NewStepValue : ProtoStepValue;
  ParamPositions : list ParameterPosition
}.

Record StepNameResponse : Type := mkStepNameResponse {
  IsStepPresent : bool;
  HasAlias : bool;
  StepName : list string
}.

Record RefactorResponse : Type := mkRefactorResponse {
  Success : bool;
  Error : string;
  FilesChanged : list string
}.

(** [gauge_messages.Message], by message type *)
Inductive Message : Type :=
| Message_StepNameRequest (stepValue : string)
| Message_StepNameResponse (r : StepNameResponse)
| Message_RefactorRequest (r : RefactorRequest)
| Message_RefactorResponse (r : RefactorResponse)
| Message_Other.

(** The getters of the generated protobuf code: a message that does not
    carry the asked part yields a nil part, whose getters yield zero
    values. *)
Definition GetStepNameResponse (m : Message) : option StepNameResponse :=
  match m with Message_StepNameResponse r => Some r | _ => None end.
Definition GetIsStepPresent (r : option StepNameResponse) : bool :=
  from_option IsStepPresent false r.
Definition GetHasAlias (r : option StepNameResponse) : bool :=
  from_option HasAlias false r.
Definition GetStepName (r : option StepNameResponse) : list string :=
  from_option StepName [] r.

Definition GetRefactorResponse (m : Message) : option RefactorResponse :=
  match m with Message_RefactorResponse r => Some r | _ => None end.
Definition GetSuccess (r : option RefactorResponse) : bool :=
  from_option Success false r.
Definition GetError (r : option RefactorResponse) : string :=
  from_option Error "" r.
Definition GetFilesChanged (r : option RefactorResponse) : list string :=
  from_option FilesChanged [] r.

Record testRunner : Type := mkRunner { connection : nat }.

(** A [*specification] *)
Definition loc : Type := nat.

(** ** The collaborators outside refactor.go

    Parser, document source, formatter, runner and transport are taken
    as parameters: whatever they answer, refactor.go does what follows. *)
Record World : Type := mkWorld {
  generateTokens : string → Go.error + list string;
  createStepUsingLookup : string → Go.error + step;
  GetProjectRoot : Go.error + string;
  findSpecs : string → list specification.t * list parseResult;
  createConceptsDictionary : gmap string concept.t * parseResult;
  formatSpecification : specification.t → string;
  formatConcepts : gmap string concept.t → gmap string string;
  startRunnerAndMakeConnection : Go.error + testRunner;
  getResponseForMessageWithTimeout : Message → nat → Go.error + Message;
  extractStepValueAndParams : string → bool → Go.error + stepValue;
  populateFragments : step → step;
  convertToStepText : list Fragment → string;
  convertToProtoStepValue : stepValue → ProtoStepValue;
  (** normalisation of a step text and remapping of inline arguments,
      used by the rename below *)
  normalize : string → string;
  getArgsInOrder : step → step → gmap Z Z → list stepArg;
  (** the order in which a [range] visits the entries of a map *)
  rangeOrder : ∀ A : Type, list A → list A
}.

(** Go promises only that a [range] over a map visits every entry once. *)
Definition rangeVisitsAll (w : World) : Prop :=
  ∀ (A : Type) (l : list A), rangeOrder w A l ≡ₚ l.

(** ** Effects: what a run does to the outside and to the documents *)

Inductive event : Type :=
| EvGenerateTokens (text : string)
| EvGetProjectRoot
| EvFindSpecs (root : string)
| EvCreateConceptsDictionary
| EvRenameSteps (spec : loc)
| EvRename (fileName : string)
| EvSaveFile (fileName content : string)
| EvLoadGaugeEnvironment
| EvStartAPIService (port : Z)
| EvStartRunner
| EvSend (m : Message)
| EvKill.

(** The state of a run: the calls made so far, the specifications and the
    concepts held in memory, and the successive contents of the main
    [refactoringResult] object, the last one being the current one. *)
Record state : Type := mkState {
  trace : list event;
  specHeap : gmap loc specification.t;
  conceptsMap : gmap string concept.t;
  mainResult : list refactoringResult
}.

(** A computation either returns or panics ([None]); the state reached is
    kept in both cases. *)
Definition Eff (A : Type) : Type := state → state * option A.

#[global] Instance Eff_ret : MRet Eff := λ A a s, (s, Some a).
#[global] Instance Eff_bind : MBind Eff := λ A B f m s,
  match m s with
  | (s', Some a) => f a s'
  | (s', None) => (s', None)
  end.

Definition panic {A} : Eff A := λ s, (s, None).

Definition orPanic {A} (o : option A) : Eff A :=
  match o with Some a => mret a | None => panic end.

Definition emit (e : event) : Eff unit := λ s,
  (mkState (trace s ++ [e]) (specHeap s) (conceptsMap s) (mainResult s), Some ()).

Definition getState : Eff state := λ s, (s, Some s).

Definition setSpec (p : loc) (spec : specification.t) : Eff unit := λ s,
  (mkState (trace s) (<[p := spec]> (specHeap s)) (conceptsMap s) (mainResult s),
   Some ()).

Definition setConcepts (m : gmap string concept.t) : Eff unit := λ s,
  (mkState (trace s) (specHeap s) m (mainResult s), Some ()).

(** [*p] for a [*specification]; a pointer to nothing is nil *)
Definition deref (p : loc) : Eff specification.t := λ s,
  (s, specHeap s !! p).

(** [&refactoringResult{...}] for the main result *)
Definition newResult (r : refactoringResult) : Eff unit := λ s,
  (mkState (trace s) (specHeap s) (conceptsMap s) (mainResult s ++ [r]), Some ()).

(** an assignment to a field of the main result *)
Definition updateResult (f : refactoringResult → refactoringResult)
  : Eff unit := λ s,
  match last (mainResult s) with
  | Some r =>
      (mkState (trace s) (specHeap s) (conceptsMap s) (mainResult s ++ [f r]),
       Some ())
  | None => (s, None)
  end.

Definition readResult : Eff refactoringResult := λ s, (s, last (mainResult s)).

(** [defer cleanup]: [cleanup] runs when the body returns or panics *)
Definition defer {A} (cleanup : Eff unit) (body : Eff A) : Eff A := λ s,
  let '(s1, r) := body s in (fst (cleanup s1), r).

(** a [range] over a slice with an accumulator *)
Fixpoint forEach {A B} (f : B → A → Eff B) (acc : B) (l : list A) : Eff B :=
  match l with
  | [] => mret acc
  | x :: rest => acc' ← f acc x; forEach f acc' rest
  end.

(** ** The refactoring result *)

Definition setSuccess (b : bool) (r : refactoringResult) : refactoringResult :=
  mkResult b (specsChanged r) (conceptsChanged r) (runnerFilesChanged r)
    (errors r) (result_warnings r).

Definition appendError (e : string) (r : refactoringResult)
  : refactoringResult :=
  mkResult (success r) (specsChanged r) (conceptsChanged r)
    (runnerFilesChanged r) (errors r ++ [e]) (result_warnings r).

Definition appendToWarnings (ws : list string) (r : refactoringResult)
  : refactoringResult :=
  mkResult (success r) (specsChanged r) (conceptsChanged r)
    (runnerFilesChanged r) (errors r) (result_warnings r ++ ws).

Definition setRunnerFilesChanged (fs : list string) (r : refactoringResult)
  : refactoringResult :=
  mkResult (success r) (specsChanged r) (conceptsChanged r) fs
    (errors r) (result_warnings r).

Definition rephraseFailure (errors : list string) : refactoringResult :=
  mkResult false [] [] [] errors [].

Definition appendWarnings (r : refactoringResult) (ws : list warning)
  : refactoringResult :=
  foldl (λ r warning, appendToWarnings [message warning] r) r ws.

Definition addErrorsAndWarningsToRefactoringResult
    (refactorResult : refactoringResult) (parseResults : list parseResult)
  : refactoringResult :=
  foldl (λ r parseResult,
           let r := if negb (ok parseResult)
                    then appendError (error parseResult) (setSuccess false r)
                    else r in
           appendWarnings r (warnings parseResult))
        refactorResult parseResults.

Definition allFilesChanges (r : refactoringResult) : list string :=
  ([] ++ specsChanged r) ++ conceptsChanged r ++ runnerFilesChanged r.

Definition setFragments (fs : list Fragment) (s : step) : step :=
  mkStep (lineText s) (value s) (args s) fs (isConceptStep s).

Definition newline : string := String (Ascii.ascii_of_nat 10) EmptyString.

Section Refactor.

Context (w : World).

(** *** The refactoring agent *)

(** the loop of [getRefactorAgent] over the step tokens *)
Fixpoint createSteps (stepTokens : list string) (steps : list step)
  : Go.error + list step :=
  match stepTokens with
  | [] => inr steps
  | stepToken :: rest =>
      match createStepUsingLookup w stepToken with
      | inl err => inl err
      | inr step => createSteps rest (steps ++ [step])
      end
  end.

Definition getRefactorAgent (oldStepText newStepText : string)
  : Eff (Go.error + rephraseRefactorer) :=
  let text := "* " +:+ oldStepText +:+ newline +:+ "*" +:+ newStepText in
  emit (EvGenerateTokens text);;
  match generateTokens w text with
  | inl err => mret (inl err)
  | inr stepTokens =>
      match createSteps stepTokens [] with
      | inl err => mret (inl err)
      | inr steps =>
          step0 ← orPanic (index steps 0);
          step1 ← orPanic (index steps 1);
          mret (inr (mkAgent step0 step1 false))
      end
  end.

(** *** The rewrite of the documents *)

(** A step occurrence is an occurrence of the old step when their
    normalised texts are equal (§4.2 of the spec). *)
Definition isOccurrence (old s : step) : bool :=
  bool_decide (normalize w (value s) = normalize w (value old)).

(** Modelled from the spec: [step.rename] is declared outside
    refactor.go.  By §4.2 an occurrence of the old step takes the text of
    the new step, with its inline arguments remapped through the order
    map, and counts as changed; renaming the header of a concept sets the
    concept flag; any other step is left alone and the flag handed in is
    handed back.  The result is the step, the returned flag and the
    concept flag. *)
Definition rename (s old new : step) (isRefactored : bool)
    (orderMap : gmap Z Z) (isConcept : bool) : step * bool * bool :=
  if isOccurrence old s then
    (mkStep (lineText s) (value new) (getArgsInOrder w s new orderMap)
       (fragments s) (isConceptStep s),
     true, isConcept || isConceptStep s)
  else (s, isRefactored, isConcept).

(** Modelled from the spec: the visit of [specification.renameSteps],
    which is declared outside refactor.go.  By §4.2 every step occurrence
    of the document is visited, and the result tells whether at least one
    was changed. *)
Fixpoint renameAll (ss : list step) (old new : step) (isRefactored : bool)
    (orderMap : gmap Z Z) : list step * bool :=
  match ss with
  | [] => ([], isRefactored)
  | s :: rest =>
      let '(s', b, _) := rename s old new isRefactored orderMap false in
      let '(rest', b') := renameAll rest old new b orderMap in
      (s' :: rest', b')
  end.

(** Modelled from the spec: [specification.renameSteps] itself, the visit
    above applied to the steps of the document, starting from a false
    flag. *)
Definition renameSteps (spec : specification.t) (old new : step)
    (orderMap : gmap Z Z) : specification.t * bool :=
  let '(steps', b) :=
    renameAll (specification.steps spec) old new false orderMap in
  (specification.mk (specification.fileName spec) steps', b).

(** the body of the loop over the specifications:
    [specsRefactored[spec] = spec.renameSteps(...)] *)
Definition renameSpec (old new : step) (orderMap : gmap Z Z)
    (specsRefactored : gmap loc bool) (p : loc) : Eff (gmap loc bool) :=
  spec ← deref p;
  emit (EvRenameSteps p);;
  let '(spec', b) := renameSteps spec old new orderMap in
  setSpec p spec';;
  mret (<[p := b]> specsRefactored).

(** the body of the loop over the items of a concept *)
Definition renameItem (fileName : string) (old new : step)
    (orderMap : gmap Z Z)
    (acc : list item * gmap string bool * bool) (it : item)
  : Eff (list item * gmap string bool * bool) :=
  let '(visited, conceptFilesRefactored, isConcept) := acc in
  let isRefactored := flag_get conceptFilesRefactored fileName in
  match it with
  | stepItem s =>
      emit (EvRename fileName);;
      let '(s', b, isConcept') :=
        rename s old new isRefactored orderMap isConcept in
      mret (visited ++ [stepItem s'],
            <[fileName := b || isRefactored]> conceptFilesRefactored,
            isConcept')
  | otherItem _ =>
      mret (visited ++ [it],
            <[fileName := false || isRefactored]> conceptFilesRefactored,
            isConcept)
  end.

(** the body of the loop over the concepts of the dictionary *)
Definition renameConcept (old new : step) (orderMap : gmap Z Z)
    (acc : gmap string bool * bool) (entry : string * concept.t)
  : Eff (gmap string bool * bool) :=
  let '(conceptFilesRefactored, isConcept) := acc in
  let '(key, concept) := entry in
  let fileName := concept.fileName concept in
  let ok := bool_decide (is_Some (conceptFilesRefactored !! fileName)) in
  let conceptFilesRefactored :=
    <[fileName := negb ok && false
                  || flag_get conceptFilesRefactored fileName]>
      conceptFilesRefactored in
  '(items', conceptFilesRefactored, isConcept) ←
    forEach (renameItem fileName old new orderMap)
      ([], conceptFilesRefactored, isConcept)
      (items (concept.conceptStep concept));
  s ← getState;
  setConcepts (<[key := concept.mk (mkConceptStep items') fileName]>
                 (conceptsMap s));;
  mret (conceptFilesRefactored, isConcept).

Definition rephraseInSpecsAndConcepts (agent : rephraseRefactorer)
    (specs : list loc)
  : Eff (gmap loc bool * gmap string bool * rephraseRefactorer) :=
  orderMap ← orPanic (createOrderOfArgs agent);
  specsRefactored ←
    forEach (renameSpec (oldStep agent) (newStep agent) orderMap) ∅ specs;
  s ← getState;
  '(conceptFilesRefactored, isConcept) ←
    forEach (renameConcept (oldStep agent) (newStep agent) orderMap)
      (∅, false) (rangeOrder w _ (map_to_list (conceptsMap s)));
  mret (specsRefactored, conceptFilesRefactored,
        mkAgent (oldStep agent) (newStep agent) isConcept).

(** *** Persistence *)

Definition writeSpec (specsRefactored : gmap loc bool)
    (specFiles : list string) (p : loc) : Eff (list string) :=
  if flag_get specsRefactored p then
    spec ← deref p;
    let specFiles := specFiles ++ [specification.fileName spec] in
    let formatted := formatSpecification w spec in
    emit (EvSaveFile (specification.fileName spec) formatted);;
    mret specFiles
  else mret specFiles.

Definition writeConcept (conceptFilesRefactored : gmap string bool)
    (conceptFiles : list string) (entry : string * string)
  : Eff (list string) :=
  let '(fileName, concept) := entry in
  if flag_get conceptFilesRefactored fileName then
    let conceptFiles := conceptFiles ++ [fileName] in
    emit (EvSaveFile fileName concept);;
    mret conceptFiles
  else mret conceptFiles.

Definition writeToConceptAndSpecFiles (specs : list loc)
    (specsRefactored : gmap loc bool)
    (conceptFilesRefactored : gmap string bool)
  : Eff (list string * list string) :=
  specFiles ← forEach (writeSpec specsRefactored) [] specs;
  s ← getState;
  let conceptMap := formatConcepts w (conceptsMap s) in
  conceptFiles ←
    forEach (writeConcept conceptFilesRefactored) []
      (rangeOrder w _ (map_to_list conceptMap));
  mret (specFiles, conceptFiles).

(** *** The runner *)

Definition startRunner : Eff (Go.error + testRunner) :=
  emit EvLoadGaugeEnvironment;;
  emit (EvStartAPIService 0);;
  emit EvStartRunner;;
  match startRunnerAndMakeConnection w with
  | inl err => mret (inl ("Failed to connect to test runner: " +:+ err))
  | inr testRunner => mret (inr testRunner)
  end.

Definition getStepNameFromRunner (agent : rephraseRefactorer)
    (runner : testRunner) : Eff (Go.error + string) :=
  let stepNameMessage := Message_StepNameRequest (value (oldStep agent)) in
  emit (EvSend stepNameMessage);;
  match getResponseForMessageWithTimeout w stepNameMessage
          (connection runner) with
  | inl err => mret (inl err)
  | inr responseMessage =>
      let response := GetStepNameResponse responseMessage in
      if negb (GetIsStepPresent response) then
        mret (inl ("Step implementation not found: "
                   +:+ lineText (oldStep agent)))
      else if GetHasAlias response then
        mret (inl ("steps with aliases : '"
                   +:+ Join (GetStepName response) "', '"
                   +:+ "' cannot be refactored."))
      else
        stepName ← orPanic (index (GetStepName response) 0);
        mret (inr stepName)
  end.

Definition getStepValueFor (step : step) (stepName : string)
  : Go.error + stepValue :=
  extractStepValueAndParams w stepName false.

(** the loop of [generateNewStepName] over the fragments *)
Fixpoint substituteArgs (args : list string) (orderMap : gmap Z Z)
    (paramIndex : Z) (fragments : list Fragment) : option (list Fragment) :=
  match fragments with
  | [] => Some []
  | Fragment_Text text :: rest =>
      rest' ← substituteArgs args orderMap paramIndex rest;
      Some (Fragment_Text text :: rest')
  | Fragment_Parameter p :: rest =>
      p' ← (if decide (map_get orderMap paramIndex ≠ -1) then
              arg ← index args (map_get orderMap paramIndex);
              Some (mkParameter (parameterType p) arg (Name p))
            else Some p);
      rest' ← substituteArgs args orderMap (paramIndex + 1) rest;
      Some (Fragment_Parameter p' :: rest')
  end.

(** The result is the step text and the agent, whose new step now
    carries the substituted fragments. *)
Definition generateNewStepName (agent : rephraseRefactorer)
    (args : list string) (orderMap : gmap Z Z)
  : option (string * rephraseRefactorer) :=
  let newStep' := populateFragments w (newStep agent) in
  fragments' ← substituteArgs args orderMap 0 (fragments newStep');
  Some (convertToStepText w fragments',
        mkAgent (oldStep agent) (setFragments fragments' newStep')
          (isConcept agent)).

(** the [range] over the order map *)
Definition createParameterPositions (orderMap : gmap Z Z)
  : list ParameterPosition :=
  foldl (λ paramPositions '(k, v),
           paramPositions ++ [mkParameterPosition k v])
    [] (rangeOrder w _ (map_to_list orderMap)).

Definition createRefactorRequest (agent : rephraseRefactorer)
    (runner : testRunner) (stepName : string)
  : option (Go.error + Message) :=
  match getStepValueFor (oldStep agent) stepName with
  | inl err => Some (inl err)
  | inr oldStepValue =>
      orderMap ← createOrderOfArgs agent;
      '(newStepName, _) ←
        generateNewStepName agent (sv_args oldStepValue) orderMap;
      match extractStepValueAndParams w newStepName false with
      | inl err => Some (inl err)
      | inr newStepValue =>
          let oldProtoStepValue := convertToProtoStepValue w oldStepValue in
          let newProtoStepValue := convertToProtoStepValue w newStepValue in
          Some (inr (Message_RefactorRequest
                       (mkRefactorRequest oldProtoStepValue
                          newProtoStepValue
                          (createParameterPositions orderMap))))
      end
  end.

Definition sendRefactorRequest (testRunner : testRunner)
    (refactorRequest : Message) : Eff (option RefactorResponse) :=
  emit (EvSend refactorRequest);;
  match getResponseForMessageWithTimeout w refactorRequest
          (connection testRunner) with
  | inl err => mret (Some (mkRefactorResponse false err []))
  | inr response => mret (GetRefactorResponse response)
  end.

(** The result is the pair the Go function returns: the files and the
    error, [None] for a nil error.  The line that [apiLog.Error] writes to
    the log is not recorded. *)
Definition requestRunnerForRefactoring (agent : rephraseRefactorer)
    (testRunner : testRunner) (stepName : string)
  : Eff (list string * option Go.error) :=
  r ← orPanic (createRefactorRequest agent testRunner stepName);
  match r with
  | inl err => mret ([], Some err)
  | inr refactorRequest =>
      refactorResponse ← sendRefactorRequest testRunner refactorRequest;
      let runnerError :=
        if negb (GetSuccess refactorResponse)
        then Some (GetError refactorResponse) else None in
      mret (GetFilesChanged refactorResponse, runnerError)
  end.

(** *** The refactoring *)

Definition performRefactoringOn (agent : rephraseRefactorer)
    (specs : list loc) : Eff refactoringResult :=
  '(specsRefactored, conceptFilesRefactored, agent) ←
    rephraseInSpecsAndConcepts agent specs;
  '(specFiles, conceptFiles) ←
    writeToConceptAndSpecFiles specs specsRefactored conceptFilesRefactored;
  newResult (mkResult false specFiles conceptFiles [] [] []);;
  r ← startRunner;
  match r with
  | inl connErr =>
      updateResult (appendError connErr);;
      readResult
  | inr runner =>
      defer (emit EvKill)
        (r ← getStepNameFromRunner agent runner;
         match r with
         | inl err =>
             updateResult (appendError err);;
             readResult
         | inr stepName =>
             '(runnerFilesChanged, err) ←
               requestRunnerForRefactoring agent runner stepName;
             match err with
             | Some err =>
                 updateResult
                   (appendError
                      ("Only spec files and concepts refactored: " +:+ err));;
                 readResult
             | None =>
                 updateResult (setSuccess true);;
                 updateResult (setRunnerFilesChanged runnerFilesChanged);;
                 readResult
             end
         end)
  end.

(** [findSpecs] hands back freshly allocated specifications. *)
Fixpoint allocSpecs (new : list specification.t) (specs : list loc)
  : Eff (list loc) :=
  match new with
  | [] => mret specs
  | spec :: rest =>
      s ← getState;
      let p := fresh (dom (specHeap s)) in
      setSpec p spec;;
      allocSpecs rest (specs ++ [p])
  end.

Definition performRephraseRefactoring (oldStepText newStepText : string)
  : Eff refactoringResult :=
  if bool_decide (newStepText = oldStepText) then
    mret (rephraseFailure ["Same old step name and new step name."])
  else
    r ← getRefactorAgent oldStepText newStepText;
    match r with
    | inl err => mret (rephraseFailure [err])
    | inr agent =>
        emit EvGetProjectRoot;;
        match GetProjectRoot w with
        | inl err => mret (rephraseFailure [err])
        | inr projectRoot =>
            let result := mkResult true [] [] [] [] [] in
            emit (EvFindSpecs projectRoot);;
            let '(found, specParseResults) := findSpecs w projectRoot in
            specs ← allocSpecs found [];
            let result :=
              addErrorsAndWarningsToRefactoringResult result
                specParseResults in
            if negb (success result) then mret result
            else
              emit EvCreateConceptsDictionary;;
              let '(conceptDictionary, parseResult) :=
                createConceptsDictionary w in
              setConcepts conceptDictionary;;
              let result :=
                addErrorsAndWarningsToRefactoringResult result
                  [parseResult] in
              if negb (success result) then mret result
              else
                performRefactoringOn agent specs;;
                updateResult (appendToWarnings (result_warnings result));;
                readResult
        end
    end.

End Refactor.

(** ** A sample project

    Concrete collaborators on which the statements below are exercised:
    the step "transfer <from> to <to>" rephrased to
    "transfer <to> from <from>". *)
Module Sample.

Definition dynamic (name : string) : Fragment :=
  Fragment_Parameter (mkParameter Parameter_Dynamic name name).

Definition oldTransfer : step :=
  mkStep "transfer <from> to <to>" "transfer {} to {}"
    [mkArg "from"; mkArg "to"]
    [Fragment_Text "transfer "; dynamic "from"; Fragment_Text " to ";
     dynamic "to"]
    false.

Definition newTransfer : step :=
  mkStep "transfer <to> from <from>" "transfer {} from {}"
    [mkArg "to"; mkArg "from"]
    [Fragment_Text "transfer "; dynamic "to"; Fragment_Text " from ";
     dynamic "from"]
    false.

Definition agent : rephraseRefactorer := mkAgent oldTransfer newTransfer false.

Definition runner : testRunner := mkRunner 7.

Definition showFragment (f : Fragment) : string :=
  match f with
  | Fragment_Text text => text
  | Fragment_Parameter p => "<" +:+ Value p +:+ ">"
  end.

Definition showFragments (fs : list Fragment) : string :=
  foldr (λ f text, showFragment f +:+ text) "" fs.

Definition showSpec (spec : specification.t) : string :=
  Join (value <$> specification.steps spec) newline.

Definition showConcepts (m : gmap string concept.t) : gmap string string :=
  list_to_map ((λ entry, (concept.fileName (snd entry), fst entry))
                 <$> map_to_list m).

(** A project with the given documents, runner and runner answers; a
    [range] over a map visits its entries in reverse order. *)
Definition world (found : list specification.t * list parseResult)
    (dictionary : gmap string concept.t * parseResult)
    (started : Go.error + testRunner)
    (answer : Message → Go.error + Message) : World :=
  mkWorld
    (λ _, inr ["old"; "new"])
    (λ token, inr (if bool_decide (token = "old")
                   then oldTransfer else newTransfer))
    (inr "/project")
    (λ _, found)
    dictionary
    showSpec
    showConcepts
    started
    (λ m _, answer m)
    (λ text _, inr (mkStepValue ["a"; "b"] text text))
    (λ s, s)
    showFragments
    (λ sv, mkProtoStepValue (sv_stepValue sv)
             (sv_parameterizedStepValue sv) (sv_args sv))
    (λ text, text)
    (λ s new _, args new)
    (λ _ l, reverse l).

Definition okParse : parseResult := mkParseResult true "" [].

Definition transferSpec : specification.t :=
  specification.mk "bank.spec" [oldTransfer].

Definition otherSpec : specification.t :=
  specification.mk "other.spec" [newTransfer].

Definition transferConcept : concept.t :=
  concept.mk (mkConceptStep [otherItem "a comment"; stepItem oldTransfer])
    "bank.cpt".

(** the runner answers a step name request with [response] and a
    refactor request with [refactored] *)
Definition answering (response : StepNameResponse)
    (refactored : Go.error + Message) (m : Message) : Go.error + Message :=
  match m with
  | Message_StepNameRequest _ => inr (Message_StepNameResponse response)
  | _ => refactored
  end.

Definition project (response : StepNameResponse)
    (refactored : Go.error + Message) : World :=
  world ([transferSpec; otherSpec], [okParse])
    ({[ "transfer" := transferConcept ]}, okParse)
    (inr runner) (answering response refactored).

Definition start : state := mkState [] ∅ ∅ [].

End Sample.

(** ** Notions used in the statements *)

(** what the transport hands back for the step name request *)
Definition stepNameAnswer (w : World) (agent : rephraseRefactorer)
    (runner : testRunner) : Go.error + Message :=
  getResponseForMessageWithTimeout w
    (Message_StepNameRequest (value (oldStep agent))) (connection runner).

(** the parameters of a list of fragments, in order *)
Definition parameters (fs : list Fragment) : list ProtoParameter :=
  omap (λ f, match f with
             | Fragment_Parameter p => Some p
             | Fragment_Text _ => None
             end) fs.

(** a fragment and what the substitution may make of it: a text stays
    the same text, a parameter stays a parameter *)
Definition sameSlot (f f' : Fragment) : Prop :=
  match f, f' with
  | Fragment_Text text, Fragment_Text text' => text = text'
  | Fragment_Parameter _, Fragment_Parameter _ => True
  | _, _ => False
  end.

(** the parameter [p] at parameter position [i] and its substitute [p'] *)
Definition substituted (args : list string) (orderMap : gmap Z Z) (i : Z)
    (p p' : ProtoParameter) : Prop :=
  if decide (map_get orderMap i = -1) then p' = p
  else index args (map_get orderMap i) = Some (Value p')
       ∧ parameterType p' = parameterType p ∧ Name p' = Name p.

(** the entry of the parameter position list for the new index [i] *)
Definition positionOf (orderMap : gmap Z Z) (i : nat) : ParameterPosition :=
  mkParameterPosition (Z.of_nat i) (map_get orderMap (Z.of_nat i)).

(** a computation never leaves the relation [R] between the state it
    starts from and the state it reaches *)
Definition preserves {A} (R : relation state) (m : Eff A) : Prop :=
  ∀ s, R s (m s).1.

(** the main result object is not written *)
Definition sameMain : relation state :=
  λ s s', mainResult s' = mainResult s.

(** the documents in memory are not written *)
Definition sameDocuments : relation state :=
  λ s s', specHeap s' = specHeap s ∧ conceptsMap s' = conceptsMap s.

(** the concepts in memory are not written *)
Definition sameConcepts : relation state :=
  λ s s', conceptsMap s' = conceptsMap s.

(** the calls made are all of the kind [P] *)
Definition calls (P : event → Prop) : relation state :=
  λ s s', ∃ evs, trace s' = trace s ++ evs ∧ Forall P evs.

(** the result of a computation run from the empty state *)
Definition outcome {A} (m : Eff A) : option A :=
  (m (mkState [] ∅ ∅ [])).2.

(** the calls of the pre-check stage: parsing the phrases and finding and
    parsing the documents *)
Definition isPreCheck (e : event) : Prop :=
  match e with
  | EvGenerateTokens _ | EvGetProjectRoot | EvFindSpecs _
  | EvCreateConceptsDictionary => True
  | _ => False
  end.

(** the calls that rewrite a document in memory *)
Definition isRename (e : event) : Prop :=
  match e with EvRenameSteps _ | EvRename _ => True | _ => False end.

(** the calls that write a file *)
Definition isSave (e : event) : Prop :=
  match e with EvSaveFile _ _ => True | _ => False end.

(** the calls that start, contact or stop the runner *)
Definition isRunnerCall (e : event) : Prop :=
  match e with
  | EvLoadGaugeEnvironment | EvStartAPIService _ | EvStartRunner | EvSend _
  | EvKill => True
  | _ => False
  end.

(** the errors and the warnings of a list of parse results, in order *)
Definition parseErrors (prs : list parseResult) : list string :=
  error <$> filter (λ pr, ok pr = false) prs.

Definition parseWarnings (prs : list parseResult) : list string :=
  prs ≫= λ pr, message <$> warnings pr.

(** the parse results that the pre-check collects: those of the
    specifications and, if these all parsed, that of the concepts *)
Definition collected (w : World) (root : string) : list parseResult :=
  let specParseResults := (findSpecs w root).2 in
  if forallb ok specParseResults
  then specParseResults ++ [(createConceptsDictionary w).2]
  else specParseResults.

(** What the runner stages of [performRefactoringOn] make of the main
    result [r0] created before them, by the answers of the runner: the
    contents written to the object after [r0], and the result handed back,
    [None] for a panic. *)
Inductive runnerRun (w : World) (agent : rephraseRefactorer)
    (r0 : refactoringResult)
  : list refactoringResult → option refactoringResult → Prop :=
| connectionFailed err :
    startRunnerAndMakeConnection w = inl err →
    runnerRun w agent r0
      [appendError ("Failed to connect to test runner: " +:+ err) r0]
      (Some (appendError ("Failed to connect to test runner: " +:+ err) r0))
| stepNamePanicked runner :
    startRunnerAndMakeConnection w = inr runner →
    outcome (getStepNameFromRunner w agent runner) = None →
    runnerRun w agent r0 [] None
| stepNameFailed runner err :
    startRunnerAndMakeConnection w = inr runner →
    outcome (getStepNameFromRunner w agent runner) = Some (inl err) →
    runnerRun w agent r0 [appendError err r0] (Some (appendError err r0))
| requestPanicked runner stepName :
    startRunnerAndMakeConnection w = inr runner →
    outcome (getStepNameFromRunner w agent runner) = Some (inr stepName) →
    outcome (requestRunnerForRefactoring w agent runner stepName) = None →
    runnerRun w agent r0 [] None
| requestFailed runner stepName files err :
    startRunnerAndMakeConnection w = inr runner →
    outcome (getStepNameFromRunner w agent runner) = Some (inr stepName) →
    outcome (requestRunnerForRefactoring w agent runner stepName)
    = Some (files, Some err) →
    runnerRun w agent r0
      [appendError ("Only spec files and concepts refactored: " +:+ err) r0]
      (Some (appendError
               ("Only spec files and concepts refactored: " +:+ err) r0))
| requestDone runner stepName files :
    startRunnerAndMakeConnection w = inr runner →
    outcome (getStepNameFromRunner w agent runner) = Some (inr stepName) →
    outcome (requestRunnerForRefactoring w agent runner stepName)
    = Some (files, None) →
    runnerRun w agent r0
      [setSuccess true r0;
       setRunnerFilesChanged files (setSuccess true r0)]
      (Some (setRunnerFilesChanged files (setSuccess true r0))).

(** the call that saves a specification, and the one that saves the
    formatted concepts of a file *)
Definition saveSpec (w : World) (spec : specification.t) : event :=
  EvSaveFile (specification.fileName spec) (formatSpecification w spec).

Definition saveConcept (entry : string * string) : event :=
  EvSaveFile entry.1 entry.2.

(** The successive contents [h] of a result object keep a failure: once
    a content records an error, no content from there on has
    [success = true]; and a [success = true], once written, is not taken
    back, so the flag never goes from true to false and back to true. *)
Definition failureSticks (h : list refactoringResult) : Prop :=
  (∀ i j ri rj, (i ≤ j)%nat → h !! i = Some ri → h !! j = Some rj →
                errors ri ≠ [] → success rj = false)
  ∧ (∀ i j ri rj, (i ≤ j)%nat → h !! i = Some ri → h !! j = Some rj →
                  success ri = true → success rj = true).

(** The contents that [performRefactoringOn] gives to the main result,
    with the result it hands back: nothing if the document stages panic;
    else the initial content [r0], followed by nothing if a runner stage
    panics, by [r0] with an error if a runner stage fails, and by the two
    assignments of the successful end otherwise. *)
Inductive historyShape
  : list refactoringResult → option refactoringResult → Prop :=
| shapeNone : historyShape [] None
| shapePanic r0 :
    success r0 = false → errors r0 = [] → historyShape [r0] None
| shapeFailed r0 err :
    success r0 = false → errors r0 = [] →
    historyShape [r0; appendError err r0] (Some (appendError err r0))
| shapeDone r0 files :
    success r0 = false → errors r0 = [] →
    historyShape
      [r0; setSuccess true r0; setRunnerFilesChanged files (setSuccess true r0)]
      (Some (setRunnerFilesChanged files (setSuccess true r0))).

(** A runner stage of [performRefactoringOn] fails: the connection, the
    resolution of the step name or the refactor request hands back an
    error. *)
Inductive stageFailed (w : World) (agent : rephraseRefactorer) : Prop :=
| connectionStage err :
    startRunnerAndMakeConnection w = inl err → stageFailed w agent
| stepNameStage runner err :
    startRunnerAndMakeConnection w = inr runner →
    outcome (getStepNameFromRunner w agent runner) = Some (inl err) →
    stageFailed w agent
| requestStage runner stepName files err :
    startRunnerAndMakeConnection w = inr runner →
    outcome (getStepNameFromRunner w agent runner) = Some (inr stepName) →
    outcome (requestRunnerForRefactoring w agent runner stepName)
    = Some (files, Some err) →
    stageFailed w agent.

(** All three runner stages succeed: the runner is connected, names the
    step, and answers the refactor request without an error, naming
    [files] as changed. *)
Definition stagesSucceeded (w : World) (agent : rephraseRefactorer)
    (files : list string) : Prop :=
  ∃ runner stepName,
    startRunnerAndMakeConnection w = inr runner
    ∧ outcome (getStepNameFromRunner w agent runner) = Some (inr stepName)
    ∧ outcome (requestRunnerForRefactoring w agent runner stepName)
      = Some (files, None).

(** The sample project in memory: both specifications and the concept. *)
Module SampleRun.

Definition specs : list loc := [0%nat; 1%nat].

Definition loaded : state :=
  mkState []
    {[ 0%nat := Sample.transferSpec; 1%nat := Sample.otherSpec ]}
    {[ "transfer" := Sample.transferConcept ]}
    [].

(** a runner that does not know the step *)
Definition stepUnknown : World :=
  Sample.project (mkStepNameResponse false false []) (inl "unused").

(** a runner that knows the step and refactors it *)
Definition stepRefactored : World :=
  Sample.project (mkStepNameResponse true false ["transfer {} to {}"])
    (inr (Message_RefactorResponse
            (mkRefactorResponse true "" ["StepImpl.java"]))).

End SampleRun.

(** the calls other than the release of the runner *)
Definition notKill (e : event) : Prop :=
  match e with EvKill => False | _ => True end.

(** Further sample projects. *)
Module SampleMore.

(** a specification that parses with a warning, and no runner to reach *)
Definition warned : World :=
  Sample.world
    ([Sample.transferSpec],
     [mkParseResult true "" [mkWarning "bank.spec:1 empty heading"]])
    (∅, Sample.okParse) (inl "no runner") (λ _, inl "unused").

(** a project without a manifest: its root is not found *)
Definition rootless : World :=
  mkWorld
    (λ _, inr ["old"; "new"])
    (λ token, inr (if bool_decide (token = "old")
                   then Sample.oldTransfer else Sample.newTransfer))
    (inl "no manifest found")
    (λ _, ([], []))
    (∅, Sample.okParse)
    Sample.showSpec
    Sample.showConcepts
    (inl "no runner")
    (λ _ _, inl "unused")
    (λ text _, inr (mkStepValue [] text text))
    (λ s, s)
    Sample.showFragments
    (λ sv, mkProtoStepValue (sv_stepValue sv)
             (sv_parameterizedStepValue sv) (sv_args sv))
    (λ text, text)
    (λ s new _, args new)
    (λ _ l, l).

End SampleMore.
Section OrderOfArgs.

Lemma index_lookup {A} (s : list A) (j : nat) :
  index s (Z.of_nat j) = s !! j.
Proof.
  unfold index, len. case_decide as Hj.
  - by rewrite Nat2Z.id.
  - symmetry. apply lookup_ge_None. lia.
Qed.

Lemma sameToken_lookup (s : list stepArg) (arg : stepArg) (j : nat) :
  sameToken s arg (Z.of_nat j)
  = (λ a, bool_decide (argString a = argString arg)) <$> s !! j.
Proof. unfold sameToken. rewrite index_lookup. by destruct (s !! j). Qed.

(** The loop started at [len pre], with [post] still to scan. *)
Lemma SliceIndex_loop_spec (pre post : list stepArg) (arg : stepArg) :
  (∀ a, a ∈ pre → argString a ≠ argString arg) →
  ∃ v, SliceIndex_loop (length post) (len pre)
         (sameToken (pre ++ post) arg) = Some v
       ∧ firstMatch (pre ++ post) arg v.
Proof.
  revert pre. induction post as [|a post IH]; intros pre Hpre; simpl.
  - exists (-1). split; [done|]. left. split; [done|].
    intros a Ha. rewrite app_nil_r in Ha. by apply Hpre.
  - unfold len. rewrite sameToken_lookup.
    rewrite list_lookup_middle by done. simpl.
    case_bool_decide as Heq.
    + exists (len pre). split; [done|]. right. unfold len.
      rewrite Nat2Z.id, length_app. simpl. split; [lia|]. split.
      * exists a. by rewrite list_lookup_middle.
      * intros j b Hj Hb. rewrite lookup_app_l in Hb by done.
        apply Hpre. by eapply list_elem_of_lookup_2.
    + destruct (IH (pre ++ [a])) as (v & Hv & Hfirst).
      { intros b Hb. apply elem_of_app in Hb as [Hb|Hb]; [by apply Hpre|].
        apply list_elem_of_singleton in Hb. by subst. }
      rewrite <- app_assoc in Hv, Hfirst. simpl in Hv, Hfirst.
      exists v. split; [|done]. rewrite <- Hv. f_equal.
      unfold len. rewrite length_app. simpl. lia.
Qed.

Lemma SliceIndex_spec (oldArgs : list stepArg) (arg : stepArg) :
  ∃ v, SliceIndex (len oldArgs) (sameToken oldArgs arg) = Some v
       ∧ firstMatch oldArgs arg v.
Proof.
  unfold SliceIndex, len at 1. rewrite Nat2Z.id.
  apply (SliceIndex_loop_spec [] oldArgs arg). intros a Ha.
  by apply elem_of_nil in Ha.
Qed.

Lemma createOrderOfArgs_range_spec (oldArgs done_ rest : list stepArg)
    (acc : gmap Z Z) :
  (∀ k, is_Some (acc !! k) ↔ 0 ≤ k < len done_) →
  (∀ j arg, done_ !! j = Some arg →
     ∃ v, acc !! Z.of_nat j = Some v ∧ firstMatch oldArgs arg v) →
  ∃ m, createOrderOfArgs_range oldArgs (len done_) rest acc = Some m
    ∧ (∀ k, is_Some (m !! k) ↔ 0 ≤ k < len (done_ ++ rest))
    ∧ (∀ j arg, (done_ ++ rest) !! j = Some arg →
         ∃ v, m !! Z.of_nat j = Some v ∧ firstMatch oldArgs arg v).
Proof.
  revert done_ acc. induction rest as [|arg rest IH]; intros done_ acc Hdom Hval.
  - simpl. exists acc. rewrite app_nil_r. done.
  - simpl. destruct (SliceIndex_spec oldArgs arg) as (v & -> & Hfirst). simpl.
    destruct (IH (done_ ++ [arg]) (<[len done_ := v]> acc))
      as (m & Hm & Hdom' & Hval').
    + intros k. unfold len. rewrite length_app. simpl.
      destruct (decide (k = len done_)) as [->|Hne].
      * rewrite lookup_insert_eq. unfold len. split; [lia|eauto].
      * rewrite lookup_insert_ne by done. rewrite Hdom. unfold len in *. lia.
    + intros j a Hj.
      destruct (decide (j = length done_)) as [->|Hne].
      * rewrite list_lookup_middle in Hj by done. simplify_eq.
        exists v. by rewrite lookup_insert_eq.
      * assert (j < length done_)%nat as Hlt.
        { apply lookup_lt_Some in Hj. rewrite length_app in Hj.
          simpl in Hj. lia. }
        rewrite lookup_app_l in Hj by done.
        rewrite lookup_insert_ne by (unfold len; lia). by apply Hval.
    + exists m. rewrite <- app_assoc in Hdom', Hval'. simpl in Hdom', Hval'.
      split; [|done]. rewrite <- Hm. f_equal.
      unfold len. rewrite length_app. simpl. lia.
Qed.

Lemma createOrderOfArgs_dom (agent : rephraseRefactorer) :
∃ orderMap,
  createOrderOfArgs agent = Some orderMap
  ∧ ∀ k, is_Some (orderMap !! k) ↔ 0 ≤ k < len (args (newStep agent)).
Proof.
destruct (createOrderOfArgs_range_spec (args (oldStep agent)) []
            (args (newStep agent)) ∅) as (orderMap & Horder & Hdom & _).
- intros k. rewrite lookup_empty. unfold len. simpl. split.
  + by intros [? ?].
  + lia.
- intros j arg Hj. by rewrite lookup_nil in Hj.
- by exists orderMap.
Qed.

End OrderOfArgs.

(** C1. [createOrderOfArgs] always returns an order map; its keys are
    exactly the indices [0 .. len(newStep.args)-1]; the value at a new
    index is the least old index whose argument renders the same token as
    the new argument, and the sentinel [-1] when no old argument does. *)
Theorem createOrderOfArgs_first_match (agent : rephraseRefactorer) :
  ∃ orderMap,
    createOrderOfArgs agent = Some orderMap
    ∧ (∀ k, is_Some (orderMap !! k) ↔ 0 ≤ k < len (args (newStep agent)))
    ∧ (∀ i arg, args (newStep agent) !! i = Some arg →
         ∃ v, orderMap !! Z.of_nat i = Some v
              ∧ firstMatch (args (oldStep agent)) arg v).
Proof.
  unfold createOrderOfArgs.
  apply (createOrderOfArgs_range_spec (args (oldStep agent)) []
           (args (newStep agent)) ∅).
  - intros k. rewrite lookup_empty. unfold len. simpl. split.
    + by intros [? ?].
    + lia.
  - intros j arg Hj. by rewrite lookup_nil in Hj.
Qed.

(** On the sample step the new argument "to" is found at the old index 1. *)
Lemma createOrderOfArgs_first_match_witness :
  ∃ orderMap,
    createOrderOfArgs Sample.agent = Some orderMap
    ∧ ∃ v, orderMap !! 0 = Some v
           ∧ firstMatch [mkArg "from"; mkArg "to"] (mkArg "to") v.
Proof.
  destruct (createOrderOfArgs_first_match Sample.agent)
    as (orderMap & Horder & _ & Hvalue).
  exists orderMap. split; [done|]. exact (Hvalue 0%nat (mkArg "to") eq_refl).
Defined.


(** ** Running a computation *)

Section Running.

Lemma run_bind {A B} (m : Eff A) (f : A → Eff B) (s : state) :
  (m ≫= f) s = match m s with
               | (s', Some a) => f a s'
               | (s', None) => (s', None)
               end.
Proof. reflexivity. Qed.

Lemma run_ret {A} (a : A) (s : state) : (mret a : Eff A) s = (s, Some a).
Proof. reflexivity. Qed.

End Running.

(** ** The identical old and new phrase *)

(** C7. When the old and the new phrase are the same string,
    [performRephraseRefactoring] returns at once the failure result whose
    only error is "Same old step name and new step name.", with
    [success = false]; the state is untouched: nothing was parsed, found,
    written or sent. *)
Theorem performRephraseRefactoring_same_phrase (w : World) (phrase : string)
    (s : state) :
  performRephraseRefactoring w phrase phrase s
  = (s, Some (mkResult false [] [] []
                ["Same old step name and new step name."] [])).
Proof.
  unfold performRephraseRefactoring.
  rewrite bool_decide_eq_true_2 by done. reflexivity.
Qed.

(** ** The name of the step asked from the runner *)

Section StepName.

Context (w : World) (agent : rephraseRefactorer) (runner : testRunner).

Lemma getStepNameFromRunner_run (s : state) :
  (getStepNameFromRunner w agent runner s).2
  = match stepNameAnswer w agent runner with
    | inl err => Some (inl err)
    | inr responseMessage =>
        let response := GetStepNameResponse responseMessage in
        if negb (GetIsStepPresent response) then
          Some (inl ("Step implementation not found: "
                     +:+ lineText (oldStep agent)))
        else if GetHasAlias response then
          Some (inl ("steps with aliases : '"
                     +:+ Join (GetStepName response) "', '"
                     +:+ "' cannot be refactored."))
        else inr <$> index (GetStepName response) 0
    end.
Proof.
  unfold getStepNameFromRunner, stepNameAnswer. rewrite run_bind. simpl.
  destruct (getResponseForMessageWithTimeout _ _ _) as [err|m]; [done|].
  destruct (negb _); [done|]. destruct (GetHasAlias _); [done|].
  rewrite run_bind. by destruct (index _ 0).
Qed.

Lemma index_0 {A} (l : list A) : index l 0 = head l.
Proof. by destruct l. Qed.

End StepName.

(** C6 (amended). Once the runner has answered the step name request,
    [getStepNameFromRunner] fails with "Step implementation not found: "
    followed by the line text of the old step exactly when the answer
    reports the step as not present; otherwise it fails with the alias
    error, which lists the returned names joined by [', '], exactly when
    the answer reports aliases; otherwise, provided the answer carries at
    least one name, it returns the first name. *)
Theorem getStepNameFromRunner_cases (w : World) (agent : rephraseRefactorer)
    (runner : testRunner) (s : state) (responseMessage : Message) :
  stepNameAnswer w agent runner = inr responseMessage →
  let response := GetStepNameResponse responseMessage in
  let result := (getStepNameFromRunner w agent runner s).2 in
  (result = Some (inl ("Step implementation not found: "
                       +:+ lineText (oldStep agent)))
   ↔ GetIsStepPresent response = false)
  ∧ (result = Some (inl ("steps with aliases : '"
                         +:+ Join (GetStepName response) "', '"
                         +:+ "' cannot be refactored."))
     ↔ GetIsStepPresent response = true ∧ GetHasAlias response = true)
  ∧ (∀ stepName rest,
       GetIsStepPresent response = true → GetHasAlias response = false →
       GetStepName response = stepName :: rest →
       result = Some (inr stepName)).
Proof.
  intros Hanswer response result. subst result.
  rewrite getStepNameFromRunner_run, Hanswer. simpl. fold response.
  destruct (GetIsStepPresent response), (GetHasAlias response); simpl;
    (split; [|split]); try (split; intros H); try done;
    try (destruct H; done); try (simpl in H; done).
  - by destruct (index _ _).
  - by destruct (index _ _).
  - intros stepName rest _ _ ->. done.
Qed.

(** The amended statement on the sample project, whose runner knows the
    step under the single name "transfer {} to {}". *)
Lemma getStepNameFromRunner_cases_witness :
  (getStepNameFromRunner
     (Sample.project (mkStepNameResponse true false ["transfer {} to {}"])
        (inl "unused"))
     Sample.agent Sample.runner Sample.start).2
  = Some (inr "transfer {} to {}").
Proof.
  refine (proj2 (proj2 (getStepNameFromRunner_cases _ _ _ _ _ _)) _ [] _ _ _);
    reflexivity.
Defined.

(** C6 (as first stated) fails in its last case: when the answer reports
    the step as present and without aliases but carries no name, so that
    neither error applies, no first name is returned; the read of element 0
    panics. *)
Lemma getStepNameFromRunner_no_name_returned :
  let response := mkStepNameResponse true false [] in
  let result :=
    (getStepNameFromRunner (Sample.project response (inl "unused"))
       Sample.agent Sample.runner Sample.start).2 in
  IsStepPresent response = true ∧ HasAlias response = false
  ∧ result = None
  ∧ ¬ ∃ stepName, result = Some (inr stepName).
Proof.
  vm_compute. split; [done|]. split; [done|]. split; [done|].
  by intros [stepName ?].
Qed.

(** C10. [getStepNameFromRunner] reads element 0 of the returned names
    without a check: it panics exactly when the runner answers that the
    step is present and has no alias and returns no name.  So the read is
    within bounds if and only if such an answer carries at least one
    name. *)
Theorem getStepNameFromRunner_panics_iff (w : World)
    (agent : rephraseRefactorer) (runner : testRunner) (s : state) :
  (getStepNameFromRunner w agent runner s).2 = None
  ↔ ∃ responseMessage,
      stepNameAnswer w agent runner = inr responseMessage
      ∧ GetIsStepPresent (GetStepNameResponse responseMessage) = true
      ∧ GetHasAlias (GetStepNameResponse responseMessage) = false
      ∧ GetStepName (GetStepNameResponse responseMessage) = [].
Proof.
  rewrite getStepNameFromRunner_run.
  destruct (stepNameAnswer w agent runner) as [err|m] eqn:Hanswer; simpl.
  - split; [done|]. by intros (? & ? & _).
  - destruct (GetIsStepPresent _) eqn:Hpresent; simpl.
    + destruct (GetHasAlias _) eqn:Halias; simpl.
      * split; [done|]. intros (m' & ? & _ & ? & _). simplify_eq. congruence.
      * rewrite index_0. destruct (GetStepName _) eqn:Hnames; simpl.
        -- split; [|done]. intros _. by exists m.
        -- split; [done|]. intros (m' & ? & _ & _ & ?). simplify_eq. congruence.
    + split; [done|]. intros (m' & ? & ? & _). simplify_eq. congruence.
Qed.

(** ** The parameter positions of the refactor request *)

Section ParameterPositions.

Context (w : World).

Lemma appendPositions (l : list (Z * Z)) (acc : list ParameterPosition) :
  foldl (λ paramPositions '(k, v),
           paramPositions ++ [mkParameterPosition k v]) acc l
  = acc ++ ((λ entry, mkParameterPosition entry.1 entry.2) <$> l).
Proof.
  revert acc. induction l as [|[k v] l IH]; intros acc; simpl.
  - by rewrite app_nil_r.
  - rewrite IH, <- app_assoc. done.
Qed.

Lemma createParameterPositions_map (orderMap : gmap Z Z) :
  createParameterPositions w orderMap
  = (λ entry, mkParameterPosition entry.1 entry.2)
      <$> rangeOrder w _ (map_to_list orderMap).
Proof. unfold createParameterPositions. by rewrite appendPositions. Qed.

(** An order map whose keys are [0 .. n-1] lists as its [n] entries. *)
Lemma map_to_list_indices (orderMap : gmap Z Z) (n : nat) :
  (∀ k, is_Some (orderMap !! k) ↔ 0 ≤ k < Z.of_nat n) →
  map_to_list orderMap
  ≡ₚ (λ i, (Z.of_nat i, map_get orderMap (Z.of_nat i))) <$> seq 0 n.
Proof.
  intros Hdom. apply NoDup_Permutation.
  - apply NoDup_map_to_list.
  - apply NoDup_fmap_2; [|apply NoDup_seq].
    intros i j Hij. injection Hij. lia.
  - intros [k v]. rewrite elem_of_map_to_list, list_elem_of_fmap. split.
    + intros Hk. assert (0 ≤ k < Z.of_nat n) as Hrange.
      { apply Hdom. eauto. }
      exists (Z.to_nat k). rewrite Z2Nat.id by lia. unfold map_get.
      rewrite Hk. split; [done|]. apply elem_of_seq. lia.
    + intros (i & Heq & Hi). apply elem_of_seq in Hi. simplify_eq.
      destruct (proj2 (Hdom (Z.of_nat i))) as [v Hv]; [lia|].
      unfold map_get. by rewrite Hv.
Qed.

End ParameterPositions.

(** C9. Whatever order the [range] over the order map takes, the
    parameter positions put in the refactor request are, up to that order,
    one entry for every index [i] of the new arguments, the sentinel
    entries included: its new position is [i] and its old position is the
    value of the order map at [i]. *)
Theorem createRefactorRequest_paramPositions (w : World)
    (agent : rephraseRefactorer) (runner : testRunner) (stepName : string)
    (request : RefactorRequest) :
  rangeVisitsAll w →
  createRefactorRequest w agent runner stepName
  = Some (inr (Message_RefactorRequest request)) →
  ∃ orderMap,
    createOrderOfArgs agent = Some orderMap
    ∧ (∀ k, is_Some (orderMap !! k) ↔ 0 ≤ k < len (args (newStep agent)))
    ∧ ParamPositions request
      ≡ₚ positionOf orderMap <$> seq 0 (length (args (newStep agent)))
    ∧ NoDup (ParamPositions request).
Proof.
  intros Hrange Hrequest. unfold createRefactorRequest in Hrequest.
  destruct (getStepValueFor _ _ _) as [err|oldStepValue]; [done|].
  destruct (createOrderOfArgs_dom agent) as (orderMap & Horder & Hdom).
  rewrite Horder in Hrequest. simpl in Hrequest.
  destruct (generateNewStepName _ _ _ _) as [[newStepName agent']|];
    [|done].
  simpl in Hrequest.
  destruct (extractStepValueAndParams _ _ _) as [err|newStepValue]; [done|].
  simplify_eq. simpl. exists orderMap. split; [done|]. split; [done|].
  assert (createParameterPositions w orderMap
          ≡ₚ positionOf orderMap <$> seq 0 (length (args (newStep agent))))
    as Hperm.
  { rewrite createParameterPositions_map, (Hrange _ _).
    rewrite (map_to_list_indices orderMap _ Hdom).
    by rewrite <- list_fmap_compose. }
  split; [done|]. rewrite Hperm.
  apply NoDup_fmap_2; [|apply NoDup_seq].
  intros i j Hij. injection Hij. lia.
Qed.

Lemma Sample_rangeVisitsAll found dictionary started answer :
  rangeVisitsAll (Sample.world found dictionary started answer).
Proof. intros A l. simpl. apply reverse_Permutation. Qed.

(** The request built for the sample project lists both positions. *)
Lemma createRefactorRequest_paramPositions_witness :
  ∃ request,
    createRefactorRequest
      (Sample.project (mkStepNameResponse true false []) (inl "unused"))
      Sample.agent Sample.runner "transfer {} to {}"
    = Some (inr (Message_RefactorRequest request))
    ∧ ParamPositions request
      ≡ₚ [mkParameterPosition 0 1; mkParameterPosition 1 0].
Proof.
  eexists. split; [vm_compute; reflexivity|].
  destruct (createRefactorRequest_paramPositions
              (Sample.project (mkStepNameResponse true false []) (inl "unused"))
              Sample.agent Sample.runner "transfer {} to {}" _
              (Sample_rangeVisitsAll _ _ _ _) eq_refl)
    as (orderMap & Horder & _ & Hperm & _).
  vm_compute in Horder. injection Horder as <-. exact Hperm.
Defined.

(** ** The text of the new step *)

Section NewStepName.

Context (w : World).

Lemma substituteArgs_spec (args : list string) (orderMap : gmap Z Z)
    (fs fs' : list Fragment) (paramIndex : Z) :
  substituteArgs args orderMap paramIndex fs = Some fs' →
  Forall2 sameSlot fs fs'
  ∧ ∀ i p p', parameters fs !! i = Some p → parameters fs' !! i = Some p' →
      substituted args orderMap (paramIndex + Z.of_nat i) p p'.
Proof.
  revert fs' paramIndex.
  induction fs as [|f fs IH]; intros fs' paramIndex Hrun; simpl in Hrun.
  - simplify_eq. split; [constructor|]. intros i p p' Hp.
    by destruct i.
  - destruct f as [text|p].
    + destruct (substituteArgs _ _ _ fs) as [rest'|] eqn:Hrest; [|done].
      simpl in Hrun. simplify_eq.
      destruct (IH _ _ Hrest) as [Hslots Hparams].
      split; [by constructor|]. exact Hparams.
    + destruct (decide (map_get orderMap paramIndex ≠ -1)) as [Hmapped|Hnot].
      * destruct (index args _) as [arg|] eqn:Harg; [|done]. simpl in Hrun.
        destruct (substituteArgs _ _ _ fs) as [rest'|] eqn:Hrest; [|done].
        simpl in Hrun. simplify_eq.
        destruct (IH _ _ Hrest) as [Hslots Hparams].
        split; [by constructor|]. intros [|i] q q' Hq Hq'; simpl in Hq, Hq'.
        -- simplify_eq. unfold substituted. rewrite Z.add_0_r.
           rewrite decide_False by done. done.
        -- replace (paramIndex + Z.of_nat (S i))
             with (paramIndex + 1 + Z.of_nat i) by lia.
           by apply Hparams.
      * simpl in Hrun.
        destruct (substituteArgs _ _ _ fs) as [rest'|] eqn:Hrest; [|done].
        simpl in Hrun. simplify_eq.
        destruct (IH _ _ Hrest) as [Hslots Hparams].
        split; [by constructor|]. intros [|i] q q' Hq Hq'; simpl in Hq, Hq'.
        -- simplify_eq. unfold substituted. rewrite Z.add_0_r.
           rewrite decide_True; [done|].
           destruct (decide (map_get orderMap paramIndex = -1)); done.
        -- replace (paramIndex + Z.of_nat (S i))
             with (paramIndex + 1 + Z.of_nat i) by lia.
           by apply Hparams.
Qed.

(** The loop returns as soon as every mapped position is an index of
    [args]. *)
Lemma substituteArgs_total (args : list string) (orderMap : gmap Z Z)
    (fs : list Fragment) (paramIndex : Z) :
  (∀ i, (i < length (parameters fs))%nat →
        map_get orderMap (paramIndex + Z.of_nat i) ≠ -1 →
        is_Some (index args (map_get orderMap (paramIndex + Z.of_nat i)))) →
  is_Some (substituteArgs args orderMap paramIndex fs).
Proof.
  revert paramIndex. induction fs as [|f fs IH]; intros paramIndex Hin.
  - by eexists.
  - destruct f as [text|p]; simpl in *.
    + destruct (IH paramIndex Hin) as [rest' ->]. by eexists.
    + destruct (IH (paramIndex + 1)) as [rest' ->].
      { intros i Hi. replace (paramIndex + 1 + Z.of_nat i)
          with (paramIndex + Z.of_nat (S i)) by lia.
        apply Hin. lia. }
      destruct (decide (map_get orderMap paramIndex ≠ -1)) as [Hmapped|_].
      * destruct (Hin 0%nat) as [arg Harg]; [lia| |].
        { by rewrite Z.add_0_r. }
        rewrite Z.add_0_r in Harg. rewrite Harg. by eexists.
      * by eexists.
Qed.

End NewStepName.

(** C5. [generateNewStepName] keeps the text fragments of the new step and
    puts, in the parameter fragment at parameter position [i], the element
    of [args] at the old position [orderMap[i]]; a parameter whose
    position is mapped to the sentinel [-1] is left as it was.  It returns
    whenever every mapped position is an index of [args].  For
    "transfer <from> to <to>" rephrased to "transfer <to> from <from>" the
    order map is [{0:1, 1:0}], and the old argument at index 1 goes to the
    new position 0, the old argument at index 0 to the new position 1. *)
Theorem generateNewStepName_substitutes :
  (∀ (w : World) (agent : rephraseRefactorer) (args : list string)
     (orderMap : gmap Z Z),
     let before := fragments (populateFragments w (newStep agent)) in
     (∀ text agent',
        generateNewStepName w agent args orderMap = Some (text, agent') →
        let after := fragments (newStep agent') in
        text = convertToStepText w after
        ∧ Forall2 sameSlot before after
        ∧ ∀ i p p',
            parameters before !! i = Some p → parameters after !! i = Some p' →
            substituted args orderMap (Z.of_nat i) p p')
     ∧ ((∀ i, (i < length (parameters before))%nat →
              map_get orderMap (Z.of_nat i) ≠ -1 →
              is_Some (index args (map_get orderMap (Z.of_nat i)))) →
        is_Some (generateNewStepName w agent args orderMap)))
  ∧ createOrderOfArgs Sample.agent = Some {[ 0 := 1; 1 := 0 ]}
  ∧ ∀ (arg0 arg1 : string) (response : StepNameResponse)
      (refactored : Go.error + Message),
      (λ r, fragments (newStep r.2))
        <$> generateNewStepName (Sample.project response refactored)
              Sample.agent [arg0; arg1] {[ 0 := 1; 1 := 0 ]}
      = Some [Fragment_Text "transfer ";
              Fragment_Parameter (mkParameter Parameter_Dynamic arg1 "to");
              Fragment_Text " from ";
              Fragment_Parameter (mkParameter Parameter_Dynamic arg0 "from")].
Proof.
  split; [|split].
  - intros w agent args orderMap before. split.
    + intros text agent' Hrun. unfold generateNewStepName in Hrun.
      fold before in Hrun.
      destruct (substituteArgs args orderMap 0 before) as [fs'|] eqn:Hfs;
        [|done].
      simpl in Hrun. simplify_eq. simpl.
      destruct (substituteArgs_spec _ _ _ _ _ Hfs) as [Hslots Hparams].
      split; [done|]. split; [done|]. intros i p p' Hp Hp'.
      specialize (Hparams i p p' Hp Hp'). by rewrite Z.add_0_l in Hparams.
    + intros Hin. unfold generateNewStepName. fold before.
      destruct (substituteArgs_total args orderMap before 0) as [fs' ->].
      { intros i Hi. rewrite Z.add_0_l. by apply Hin. }
      by eexists.
  - by vm_compute.
  - intros arg0 arg1 response refactored. reflexivity.
Qed.

(** On the sample step, the parameter at the new position 0 takes the old
    argument at index 1. *)
Lemma generateNewStepName_substitutes_witness :
  substituted ["a"; "b"] {[ 0 := 1; 1 := 0 ]} 0
    (mkParameter Parameter_Dynamic "to" "to")
    (mkParameter Parameter_Dynamic "b" "to").
Proof.
  edestruct (proj1 (proj1 generateNewStepName_substitutes
                      SampleRun.stepUnknown Sample.agent ["a"; "b"]
                      {[ 0 := 1; 1 := 0 ]}))
    as (_ & _ & Hsubstituted); [vm_compute; reflexivity|].
  exact (Hsubstituted 0%nat _ _ eq_refl eq_refl).
Defined.

(** ** Frames: what a computation leaves alone *)

Section Frames.

#[global] Instance sameMain_preorder : PreOrder sameMain.
Proof.
  split; [done|]. intros s1 s2 s3 H12 H23. unfold sameMain in *. congruence.
Qed.

#[global] Instance sameDocuments_preorder : PreOrder sameDocuments.
Proof.
  split; [done|]. intros s1 s2 s3 [? ?] [? ?]. unfold sameDocuments.
  split; congruence.
Qed.

#[global] Instance sameConcepts_preorder : PreOrder sameConcepts.
Proof.
  split; [done|]. intros s1 s2 s3 H12 H23. unfold sameConcepts in *.
  congruence.
Qed.

#[global] Instance calls_preorder (P : event → Prop) : PreOrder (calls P).
Proof.
  split.
  - intros s. exists []. by rewrite app_nil_r.
  - intros s1 s2 s3 (evs1 & H1 & HP1) (evs2 & H2 & HP2).
    exists (evs1 ++ evs2). rewrite H2, H1, app_assoc. split; [done|].
    by apply Forall_app.
Qed.

Lemma forEach_inv {A B} (Inv : option B → state → Prop)
    (f : B → A → Eff B) (l : list A) :
  (∀ acc x s, x ∈ l → Inv (Some acc) s → Inv (f acc x s).2 (f acc x s).1) →
  ∀ acc s, Inv (Some acc) s →
           Inv (forEach f acc l s).2 (forEach f acc l s).1.
Proof.
  induction l as [|x l IH]; intros Hstep acc s Hinv; simpl; [done|].
  rewrite run_bind.
  pose proof (Hstep acc x s (list_elem_of_here _ _) Hinv) as Hx.
  destruct (f acc x s) as [s' [acc'|]]; simpl in *; [|done].
  apply IH; [|done]. intros acc'' y s'' Hy. apply Hstep. by right.
Qed.

Context (R : relation state) `{!PreOrder R}.

Lemma preserves_ret {A} (a : A) : preserves R (mret a).
Proof. intros s. simpl. reflexivity. Qed.

Lemma preserves_bind {A B} (m : Eff A) (f : A → Eff B) :
  preserves R m → (∀ a, preserves R (f a)) → preserves R (m ≫= f).
Proof.
  intros Hm Hf s. rewrite run_bind. specialize (Hm s).
  destruct (m s) as [s' [a|]]; simpl in *; [|done].
  etrans; [done|]. apply Hf.
Qed.

Lemma preserves_forEach {A B} (f : B → A → Eff B) (acc : B) (l : list A) :
  (∀ acc x, preserves R (f acc x)) → preserves R (forEach f acc l).
Proof.
  intros Hf s.
  apply (forEach_inv (λ _ s', R s s') f l); [|reflexivity].
  intros acc' x s' _ Hs. etrans; [done|]. apply Hf.
Qed.

Lemma preserves_panic {A} : preserves R (panic : Eff A).
Proof. intros s. simpl. reflexivity. Qed.

Lemma preserves_orPanic {A} (o : option A) : preserves R (orPanic o).
Proof. destruct o; [apply preserves_ret|apply preserves_panic]. Qed.

Lemma preserves_getState : preserves R getState.
Proof. intros s. simpl. reflexivity. Qed.

Lemma preserves_deref (p : loc) : preserves R (deref p).
Proof. intros s. simpl. reflexivity. Qed.

Lemma preserves_readResult : preserves R readResult.
Proof. intros s. simpl. reflexivity. Qed.

Lemma preserves_defer {A} (cleanup : Eff unit) (body : Eff A) :
  preserves R body → preserves R cleanup → preserves R (defer cleanup body).
Proof.
  intros Hbody Hcleanup s. unfold defer. specialize (Hbody s).
  destruct (body s) as [s1 r]. simpl in *. etrans; [done|]. apply Hcleanup.
Qed.

End Frames.

Section Primitives.

Lemma sameMain_emit e : preserves sameMain (emit e).
Proof. done. Qed.
Lemma sameMain_setSpec p spec : preserves sameMain (setSpec p spec).
Proof. done. Qed.
Lemma sameMain_setConcepts m : preserves sameMain (setConcepts m).
Proof. done. Qed.

Lemma sameDocuments_emit e : preserves sameDocuments (emit e).
Proof. done. Qed.

Lemma sameConcepts_emit e : preserves sameConcepts (emit e).
Proof. done. Qed.
Lemma sameConcepts_setSpec p spec : preserves sameConcepts (setSpec p spec).
Proof. done. Qed.

Lemma calls_emit (P : event → Prop) e : P e → preserves (calls P) (emit e).
Proof. intros He s. exists [e]. split; [done|]. by constructor. Qed.
Lemma calls_silent {A} (P : event → Prop) (m : Eff A) :
  (∀ s, trace (m s).1 = trace s) → preserves (calls P) m.
Proof. intros Hm s. exists []. by rewrite app_nil_r, Hm. Qed.
Lemma calls_setSpec P p spec : preserves (calls P) (setSpec p spec).
Proof. by apply calls_silent. Qed.
Lemma calls_setConcepts P m : preserves (calls P) (setConcepts m).
Proof. by apply calls_silent. Qed.
Lemma calls_newResult P r : preserves (calls P) (newResult r).
Proof. by apply calls_silent. Qed.
Lemma calls_updateResult P f : preserves (calls P) (updateResult f).
Proof.
  apply calls_silent. intros s. unfold updateResult.
  by destruct (last (mainResult s)).
Qed.

End Primitives.

(** Steps through a computation to show that it stays within a frame. *)
Ltac frame_step :=
  first
    [ match goal with |- PreOrder _ => apply _ end
    | apply preserves_ret
    | apply preserves_panic
    | apply preserves_orPanic
    | apply preserves_getState
    | apply preserves_deref
    | apply preserves_readResult
    | apply sameMain_emit | apply sameMain_setSpec | apply sameMain_setConcepts
    | apply sameDocuments_emit
    | apply sameConcepts_emit | apply sameConcepts_setSpec
    | apply calls_setSpec | apply calls_setConcepts
    | apply calls_newResult | apply calls_updateResult
    | apply calls_emit; exact I
    | apply preserves_bind; [..|intros ?]
    | apply preserves_forEach; [..|intros ? ?]
    | apply preserves_defer
    | match goal with
      | |- preserves _ (match ?x with _ => _ end) => destruct x
      end ].

Ltac frame := cbv zeta; repeat (frame_step; cbv zeta).

Section StageFrames.

Context (w : World).

Lemma rephraseInSpecsAndConcepts_sameMain agent specs :
  preserves sameMain (rephraseInSpecsAndConcepts w agent specs).
Proof.
  unfold rephraseInSpecsAndConcepts, renameSpec, renameConcept, renameItem.
  frame.
Qed.

Lemma rephraseInSpecsAndConcepts_calls agent specs :
  preserves (calls isRename) (rephraseInSpecsAndConcepts w agent specs).
Proof.
  unfold rephraseInSpecsAndConcepts, renameSpec, renameConcept, renameItem.
  frame.
Qed.

Lemma writeToConceptAndSpecFiles_sameMain specs sr cr :
  preserves sameMain (writeToConceptAndSpecFiles w specs sr cr).
Proof.
  unfold writeToConceptAndSpecFiles, writeSpec, writeConcept. frame.
Qed.

Lemma writeToConceptAndSpecFiles_sameDocuments specs sr cr :
  preserves sameDocuments (writeToConceptAndSpecFiles w specs sr cr).
Proof.
  unfold writeToConceptAndSpecFiles, writeSpec, writeConcept. frame.
Qed.

Lemma writeToConceptAndSpecFiles_calls specs sr cr :
  preserves (calls isSave) (writeToConceptAndSpecFiles w specs sr cr).
Proof.
  unfold writeToConceptAndSpecFiles, writeSpec, writeConcept. frame.
Qed.

Lemma startRunner_sameMain : preserves sameMain (startRunner w).
Proof. unfold startRunner. frame. Qed.

Lemma startRunner_calls : preserves (calls isRunnerCall) (startRunner w).
Proof. unfold startRunner. frame. Qed.

Lemma getStepNameFromRunner_sameMain agent runner :
  preserves sameMain (getStepNameFromRunner w agent runner).
Proof. unfold getStepNameFromRunner. frame. Qed.

Lemma getStepNameFromRunner_calls agent runner :
  preserves (calls isRunnerCall) (getStepNameFromRunner w agent runner).
Proof. unfold getStepNameFromRunner. frame. Qed.

Lemma requestRunnerForRefactoring_sameMain agent runner stepName :
  preserves sameMain (requestRunnerForRefactoring w agent runner stepName).
Proof. unfold requestRunnerForRefactoring, sendRefactorRequest. frame. Qed.

Lemma requestRunnerForRefactoring_calls agent runner stepName :
  preserves (calls isRunnerCall)
    (requestRunnerForRefactoring w agent runner stepName).
Proof. unfold requestRunnerForRefactoring, sendRefactorRequest. frame. Qed.

Lemma allocSpecs_sameMain new specs : preserves sameMain (allocSpecs new specs).
Proof.
  revert specs. induction new as [|spec rest IH]; intros specs; simpl.
  - frame.
  - frame. apply IH.
Qed.

Lemma allocSpecs_sameConcepts new specs :
  preserves sameConcepts (allocSpecs new specs).
Proof.
  revert specs. induction new as [|spec rest IH]; intros specs; simpl.
  - frame.
  - frame. apply IH.
Qed.

Lemma allocSpecs_calls P new specs :
  preserves (calls P) (allocSpecs new specs).
Proof.
  revert specs. induction new as [|spec rest IH]; intros specs; simpl.
  - frame.
  - frame. apply IH.
Qed.

Lemma allocSpecs_returns new specs s : is_Some (allocSpecs new specs s).2.
Proof.
  revert specs s. induction new as [|spec rest IH]; intros specs s; simpl.
  - by eexists.
  - apply IH.
Qed.

End StageFrames.

(** ** The pre-check *)

Section PreCheck.

Context (w : World).

Lemma appendWarnings_spec (r : refactoringResult) (ws : list warning) :
  appendWarnings r ws = appendToWarnings (message <$> ws) r.
Proof.
  unfold appendWarnings. revert r.
  induction ws as [|x ws IH]; intros r; simpl.
  - destruct r. unfold appendToWarnings. simpl. by rewrite app_nil_r.
  - rewrite IH. unfold appendToWarnings. simpl. by rewrite <- app_assoc.
Qed.

Lemma addErrorsAndWarnings_spec (r : refactoringResult)
    (prs : list parseResult) :
  addErrorsAndWarningsToRefactoringResult r prs
  = mkResult (success r && forallb ok prs) (specsChanged r)
      (conceptsChanged r) (runnerFilesChanged r)
      (errors r ++ parseErrors prs)
      (result_warnings r ++ parseWarnings prs).
Proof.
  unfold addErrorsAndWarningsToRefactoringResult. revert r.
  induction prs as [|pr prs IH]; intros r; simpl.
  - destruct r. simpl. by rewrite andb_true_r, !app_nil_r.
  - rewrite IH, appendWarnings_spec. unfold parseErrors, parseWarnings.
    destruct (ok pr) eqn:Hok; simpl.
    + rewrite filter_cons_False by congruence. by rewrite <- app_assoc.
    + rewrite filter_cons_True by done. simpl.
      by rewrite andb_false_r, <- !app_assoc.
Qed.

Lemma parseErrors_app prs prs' :
  parseErrors (prs ++ prs') = parseErrors prs ++ parseErrors prs'.
Proof. unfold parseErrors. by rewrite filter_app, fmap_app. Qed.

Lemma parseWarnings_app prs prs' :
  parseWarnings (prs ++ prs') = parseWarnings prs ++ parseWarnings prs'.
Proof. unfold parseWarnings. by rewrite bind_app. Qed.

Lemma parseErrors_failed pr : ok pr = false → parseErrors [pr] = [error pr].
Proof.
  intros Hpr. unfold parseErrors. by rewrite filter_cons_True by done.
Qed.

Lemma parseWarnings_one pr : parseWarnings [pr] = message <$> warnings pr.
Proof. unfold parseWarnings. simpl. by rewrite app_nil_r. Qed.

Lemma getRefactorAgent_sameMain oldStepText newStepText :
  preserves sameMain (getRefactorAgent w oldStepText newStepText).
Proof. unfold getRefactorAgent. frame. Qed.

Lemma getRefactorAgent_calls oldStepText newStepText :
  preserves (calls isPreCheck) (getRefactorAgent w oldStepText newStepText).
Proof. unfold getRefactorAgent. frame. Qed.

Lemma forallb_ok_false (prs : list parseResult) :
  forallb ok prs = false ↔ ∃ pr, pr ∈ prs ∧ ok pr = false.
Proof.
  induction prs as [|pr prs IH]; simpl.
  - split; [done|]. intros (pr & Hpr & _). by apply elem_of_nil in Hpr.
  - rewrite andb_false_iff, IH. split.
    + intros [Hpr|(pr' & Hin & Hpr')].
      * exists pr. split; [by left|done].
      * exists pr'. split; [by right|done].
    + intros (pr' & Hin & Hpr'). apply elem_of_cons in Hin as [->|Hin].
      * by left.
      * right. by exists pr'.
Qed.

(** The specifications found are held at distinct pointers: the list that
    [performRephraseRefactoring] hands to [performRefactoringOn] has no
    repetition. *)
Lemma allocSpecs_NoDup (new : list specification.t) (specs : list loc)
    (s s' : state) (ps : list loc) :
  NoDup specs → (∀ p, p ∈ specs → is_Some (specHeap s !! p)) →
  allocSpecs new specs s = (s', Some ps) →
  NoDup ps ∧ ∀ p, p ∈ ps → is_Some (specHeap s' !! p).
Proof.
  revert specs s. induction new as [|spec rest IH]; intros specs s Hnodup Hin.
  - simpl. rewrite run_ret. intros ?. by simplify_eq.
  - simpl. rewrite run_bind. simpl. rewrite run_bind. simpl.
    set (p := fresh (dom (specHeap s))).
    assert (p ∉ dom (specHeap s)) as Hfresh by apply is_fresh.
    apply IH.
    + apply NoDup_app. split; [done|]. split; [|apply NoDup_singleton].
      intros q Hq ->%list_elem_of_singleton. apply Hfresh, elem_of_dom.
      by apply Hin.
    + intros q [Hq| ->%list_elem_of_singleton]%elem_of_app; simpl.
      * destruct (decide (q = p)) as [->|Hne].
        -- rewrite lookup_insert_eq. by eexists.
        -- rewrite lookup_insert_ne by done. by apply Hin.
      * rewrite lookup_insert_eq. by eexists.
Qed.

End PreCheck.

(** C4. When a specification or the concept dictionary does not parse,
    [performRephraseRefactoring] stops there: the result has
    [success = false], no changed file, and exactly the errors and the
    warnings collected from the parse results; the only calls made are
    those of the pre-check itself (no rename, no file write, no runner
    call), and the main result object is never created. *)
Theorem performRephraseRefactoring_parse_failure (w : World)
    (oldStepText newStepText : string) (s : state)
    (agent : rephraseRefactorer) (root : string) :
  newStepText ≠ oldStepText →
  (getRefactorAgent w oldStepText newStepText s).2 = Some (inr agent) →
  GetProjectRoot w = inr root →
  (∃ pr, pr ∈ (findSpecs w root).2 ∧ ok pr = false)
  ∨ ok (createConceptsDictionary w).2 = false →
  let run := performRephraseRefactoring w oldStepText newStepText s in
  run.2 = Some (mkResult false [] [] []
                  (parseErrors (collected w root))
                  (parseWarnings (collected w root)))
  ∧ calls isPreCheck s run.1
  ∧ sameMain s run.1.
Proof.
  intros Hne Hagent Hroot Hfail run. subst run.
  unfold performRephraseRefactoring.
  rewrite bool_decide_eq_false_2 by done. rewrite run_bind.
  pose proof (getRefactorAgent_sameMain w oldStepText newStepText s) as Hmain1.
  pose proof (getRefactorAgent_calls w oldStepText newStepText s) as Hcalls1.
  destruct (getRefactorAgent w oldStepText newStepText s) as [s1 r].
  simpl in Hagent, Hmain1, Hcalls1. subst r.
  rewrite run_bind. simpl. rewrite Hroot. rewrite run_bind. simpl.
  unfold collected.
  destruct (findSpecs w root) as [found specParseResults]. simpl in *.
  rewrite run_bind.
  set (s2 := mkState _ _ _ _).
  assert (calls isPreCheck s s2 ∧ sameMain s s2) as [Hcalls2 Hmain2].
  { split; [|done]. etrans; [exact Hcalls1|].
    exists [EvGetProjectRoot; EvFindSpecs root]. subst s2. simpl.
    rewrite <- app_assoc. split; [done|]. by repeat constructor. }
  pose proof (allocSpecs_sameMain found [] s2) as Hmain3.
  pose proof (allocSpecs_calls isPreCheck found [] s2) as Hcalls3.
  destruct (allocSpecs_returns found [] s2) as [specs Hspecs].
  destruct (allocSpecs found [] s2) as [s3 r]. simpl in *. subst r.
  rewrite !addErrorsAndWarnings_spec. simpl.
  destruct (forallb ok specParseResults) eqn:Hspecsok; simpl.
  - destruct Hfail as [Hfail|Hfail].
    { apply forallb_ok_false in Hfail. congruence. }
    rewrite run_bind. simpl.
    destruct (createConceptsDictionary w) as [conceptDictionary parseResult].
    simpl in *. rewrite Hfail. simpl. rewrite run_bind. simpl.
    rewrite appendWarnings_spec. simpl.
    rewrite parseErrors_app, parseWarnings_app.
    rewrite parseErrors_failed, parseWarnings_one by done.
    split; [done|]. split.
    + etrans; [exact Hcalls2|]. etrans; [exact Hcalls3|].
      exists [EvCreateConceptsDictionary]. split; [done|]. by repeat constructor.
    + unfold sameMain in *. simpl. congruence.
  - split; [done|]. split.
    + by etrans.
    + unfold sameMain in *. congruence.
Qed.

(** The sample project with a specification that does not parse. *)
Lemma performRephraseRefactoring_parse_failure_witness :
  (performRephraseRefactoring
     (Sample.world
        ([Sample.transferSpec],
         [mkParseResult false "bank.spec:3 table expected"
            [mkWarning "bank.spec:1 empty heading"]])
        (∅, Sample.okParse) (inr Sample.runner) (λ _, inl "unused"))
     "transfer <from> to <to>" "transfer <to> from <from>" Sample.start).2
  = Some (mkResult false [] [] [] ["bank.spec:3 table expected"]
            ["bank.spec:1 empty heading"]).
Proof.
  refine (proj1 (performRephraseRefactoring_parse_failure _ _ _ _
                   Sample.agent "/project" _ _ _ _)).
  - discriminate.
  - reflexivity.
  - reflexivity.
  - left. eexists. split; [apply list_elem_of_here|reflexivity].
Defined.

(** ** The runner stages *)

Section RunnerStages.

Context (w : World).

Lemma getStepNameFromRunner_outcome agent runner s :
  (getStepNameFromRunner w agent runner s).2
  = outcome (getStepNameFromRunner w agent runner).
Proof. unfold outcome. by rewrite !getStepNameFromRunner_run. Qed.

Lemma requestRunnerForRefactoring_outcome agent runner stepName s :
  (requestRunnerForRefactoring w agent runner stepName s).2
  = outcome (requestRunnerForRefactoring w agent runner stepName).
Proof.
  unfold outcome, requestRunnerForRefactoring. rewrite !run_bind.
  destruct (createRefactorRequest w agent runner stepName) as [[err|m]|];
    simpl; [done| |done].
  rewrite !run_bind. unfold sendRefactorRequest. rewrite !run_bind. simpl.
  by destruct (getResponseForMessageWithTimeout w m (connection runner)).
Qed.

Lemma run_updateResult f s h r :
  mainResult s = h ++ [r] →
  updateResult f s
  = (mkState (trace s) (specHeap s) (conceptsMap s) (h ++ [r; f r]), Some ()).
Proof.
  intros Hmain. unfold updateResult. rewrite Hmain, last_snoc.
  by rewrite <- app_assoc.
Qed.

Lemma run_readResult s h r :
  mainResult s = h ++ [r] → readResult s = (s, Some r).
Proof. intros Hmain. unfold readResult. by rewrite Hmain, last_snoc. Qed.

Lemma run_update_read f s h r :
  mainResult s = h ++ [r] →
  (updateResult f ≫= λ _, readResult) s
  = (mkState (trace s) (specHeap s) (conceptsMap s) (h ++ [r; f r]),
     Some (f r)).
Proof.
  intros Hmain. rewrite run_bind, (run_updateResult f s h r Hmain).
  apply (run_readResult _ (h ++ [r])). simpl. by rewrite <- app_assoc.
Qed.

Lemma calls_snoc P s s' e :
  calls P s s' → P e →
  calls P s (mkState (trace s' ++ [e]) (specHeap s') (conceptsMap s')
               (mainResult s')).
Proof.
  intros (evs & Htrace & HP) He. exists (evs ++ [e]). simpl.
  rewrite Htrace, <- app_assoc. split; [done|].
  apply Forall_app. split; [done|]. by constructor.
Qed.

Lemma performRefactoringOn_run agent specs s s1 sr cr agent' s2 sf cf
    s' res :
  rephraseInSpecsAndConcepts w agent specs s = (s1, Some (sr, cr, agent')) →
  writeToConceptAndSpecFiles w specs sr cr s1 = (s2, Some (sf, cf)) →
  performRefactoringOn w agent specs s = (s', res) →
  ∃ writes,
    runnerRun w agent' (mkResult false sf cf [] [] []) writes res
    ∧ mainResult s' = mainResult s ++ mkResult false sf cf [] [] [] :: writes
    ∧ calls isRunnerCall s2 s'.
Proof.
  intros Hrephrase Hwrite Hrun.
  pose proof (rephraseInSpecsAndConcepts_sameMain w agent specs s) as Hmain1.
  pose proof (writeToConceptAndSpecFiles_sameMain w specs sr cr s1) as Hmain2.
  rewrite Hrephrase in Hmain1. rewrite Hwrite in Hmain2.
  unfold sameMain in Hmain1, Hmain2. simpl in Hmain1, Hmain2.
  unfold performRefactoringOn in Hrun.
  rewrite run_bind, Hrephrase in Hrun. rewrite run_bind, Hwrite in Hrun.
  set (r0 := mkResult false sf cf [] [] []) in *.
  rewrite run_bind in Hrun. simpl in Hrun. rewrite run_bind in Hrun.
  set (s3 := mkState _ _ _ _) in Hrun.
  pose proof (startRunner_sameMain w s3) as Hmain4.
  pose proof (startRunner_calls w s3) as Hcalls4.
  assert ((startRunner w s3).2
          = Some match startRunnerAndMakeConnection w with
                 | inl err =>
                     inl ("Failed to connect to test runner: " +:+ err)
                 | inr runner => inr runner
                 end) as Hstarted.
  { unfold startRunner. rewrite !run_bind. simpl.
    by destruct (startRunnerAndMakeConnection w). }
  destruct (startRunner w s3) as [s4 started].
  unfold sameMain in Hmain4. simpl in Hmain4, Hcalls4, Hstarted.
  subst started.
  assert (mainResult s4 = mainResult s ++ [r0]) as Hmain.
  { rewrite Hmain4. subst s3. simpl. congruence. }
  assert (calls isRunnerCall s2 s4) as Hcalls.
  { destruct Hcalls4 as (evs & Htrace & HP). by exists evs. }
  clear Hmain4 Hcalls4. clearbody s3.
  destruct (startRunnerAndMakeConnection w) as [err|runner] eqn:Hstart.
  - rewrite (run_update_read _ _ _ _ Hmain) in Hrun. simplify_eq.
    eexists. split; [by apply connectionFailed|]. simpl.
    split; [by rewrite <- ?app_assoc|].
    destruct Hcalls as (evs & Htrace & HP). by exists evs.
  - unfold defer in Hrun. rewrite run_bind in Hrun.
    pose proof (getStepNameFromRunner_sameMain w agent' runner s4) as Hmain5.
    pose proof (getStepNameFromRunner_calls w agent' runner s4) as Hcalls5.
    pose proof (getStepNameFromRunner_outcome agent' runner s4) as Hname.
    destruct (getStepNameFromRunner w agent' runner s4) as [s5 name].
    unfold sameMain in Hmain5. simpl in Hmain5, Hcalls5, Hname.
    rewrite Hmain in Hmain5.
    assert (calls isRunnerCall s2 s5) as Hcalls' by (by etrans).
    destruct name as [[err|stepName]|].
    + rewrite (run_update_read _ _ _ _ Hmain5) in Hrun. simplify_eq.
      eexists. split; [by eapply stepNameFailed|]. simpl.
      split; [by rewrite <- ?app_assoc|].
      by apply (calls_snoc _ _
                  (mkState (trace s5) (specHeap s5) (conceptsMap s5) _)).
    + rewrite run_bind in Hrun.
      pose proof (requestRunnerForRefactoring_sameMain w agent' runner
                    stepName s5) as Hmain6.
      pose proof (requestRunnerForRefactoring_calls w agent' runner
                    stepName s5) as Hcalls6.
      pose proof (requestRunnerForRefactoring_outcome agent' runner
                    stepName s5) as Hrequest.
      destruct (requestRunnerForRefactoring w agent' runner stepName s5)
        as [s6 request].
      unfold sameMain in Hmain6. simpl in Hmain6, Hcalls6, Hrequest.
      rewrite Hmain5 in Hmain6.
      assert (calls isRunnerCall s2 s6) as Hcalls'' by (by etrans).
      destruct request as [[files [err|]]|].
      * rewrite (run_update_read _ _ _ _ Hmain6) in Hrun. simplify_eq.
        eexists. split; [by eapply requestFailed|]. simpl.
        split; [by rewrite <- ?app_assoc|].
        by apply (calls_snoc _ _
                    (mkState (trace s6) (specHeap s6) (conceptsMap s6) _)).
      * rewrite run_bind, (run_updateResult _ _ _ _ Hmain6) in Hrun.
        rewrite (run_update_read _ _ (mainResult s ++ [r0])
                   (setSuccess true r0)) in Hrun
          by (simpl; by rewrite <- app_assoc).
        simplify_eq. eexists. split; [by eapply requestDone|]. simpl.
        split; [by rewrite <- ?app_assoc|].
        by apply (calls_snoc _ _
                    (mkState (trace s6) (specHeap s6) (conceptsMap s6) _)).
      * simplify_eq. exists []. split; [by eapply requestPanicked|]. simpl.
        split; [done|]. by apply calls_snoc.
    + simplify_eq. exists []. split; [by eapply stepNamePanicked|]. simpl.
      split; [done|]. by apply calls_snoc.
Qed.

End RunnerStages.

(** ** Persistence of the changed documents *)

Section Persistence.

Context (w : World) (sr : gmap loc bool) (cr : gmap string bool).

Lemma writeSpecs_run (specs : list loc) (acc : list string) (s s' : state)
    (res : option (list string)) :
  forEach (writeSpec w sr) acc specs s = (s', res) →
  specHeap s' = specHeap s ∧ conceptsMap s' = conceptsMap s
  ∧ ∃ written,
      trace s' = trace s ++ (saveSpec w <$> written)
      ∧ (∀ spec, spec ∈ written →
           ∃ p, p ∈ specs ∧ flag_get sr p = true
                ∧ specHeap s !! p = Some spec)
      ∧ (∀ acc', res = Some acc' →
           acc' = acc ++ (specification.fileName <$> written)
           ∧ ∀ p, p ∈ specs → flag_get sr p = true →
                  ∃ spec, specHeap s !! p = Some spec ∧ spec ∈ written).
Proof.
  revert acc s. induction specs as [|p specs IH]; intros acc s Hrun.
  - simpl in Hrun. rewrite run_ret in Hrun. simplify_eq.
    split; [done|]. split; [done|].
    exists []. simpl. rewrite app_nil_r. split; [done|].
    split; [by intros ? ?%elem_of_nil|].
    intros acc' ?. simplify_eq. rewrite app_nil_r. split; [done|].
    by intros ? ?%elem_of_nil.
  - simpl in Hrun. rewrite run_bind in Hrun. unfold writeSpec at 1 in Hrun.
    destruct (flag_get sr p) eqn:Hflag.
    + rewrite run_bind in Hrun. simpl in Hrun.
      destruct (specHeap s !! p) as [spec|] eqn:Hp.
      * rewrite run_bind in Hrun. simpl in Hrun.
        apply IH in Hrun as (Hheap & Hconcepts & written & Htrace & Hin & Hres).
        simpl in *. split; [done|]. split; [done|].
        exists (spec :: written). simpl. split.
        { rewrite Htrace, <- app_assoc. done. }
        split.
        { intros spec' [->|Hspec']%elem_of_cons.
          - exists p. split; [by left|done].
          - destruct (Hin _ Hspec') as (q & ? & ? & ?).
            exists q. split; [by right|done]. }
        intros acc' Hacc'. destruct (Hres _ Hacc') as [-> Hall].
        split; [by rewrite <- app_assoc|].
        intros q [->|Hq]%elem_of_cons Hq'.
        { exists spec. split; [done|by left]. }
        destruct (Hall q Hq Hq') as (spec' & ? & ?).
        exists spec'. split; [done|by right].
      * simplify_eq. split; [done|]. split; [done|]. exists []. simpl.
        rewrite app_nil_r. split; [done|].
        split; [by intros ? ?%elem_of_nil|]. done.
    + simpl in Hrun.
      apply IH in Hrun as (Hheap & Hconcepts & written & Htrace & Hin & Hres).
      split; [done|]. split; [done|]. exists written. split; [done|]. split.
      { intros spec' Hspec'. destruct (Hin _ Hspec') as (q & ? & ? & ?).
        exists q. split; [by right|done]. }
      intros acc' Hacc'. destruct (Hres _ Hacc') as [-> Hall].
      split; [done|]. intros q [->|Hq]%elem_of_cons Hq'; [congruence|].
      by apply Hall.
Qed.

Lemma writeConcepts_run (l : list (string * string)) (acc : list string)
    (s : state) :
  forEach (writeConcept cr) acc l s
  = (mkState
       (trace s
        ++ (saveConcept <$> filter (λ e, flag_get cr e.1 = true) l))
       (specHeap s) (conceptsMap s) (mainResult s),
     Some (acc ++ (filter (λ e, flag_get cr e.1 = true) l).*1)).
Proof.
  revert acc s. induction l as [|[f c] l IH]; intros acc s; simpl.
  - rewrite run_ret, ?filter_nil. simpl. rewrite ?app_nil_r. by destruct s.
  - rewrite run_bind. unfold writeConcept at 1.
    destruct (flag_get cr f) eqn:Hflag.
    + rewrite filter_cons_True by done. rewrite run_bind. simpl.
      rewrite IH. simpl. by rewrite <- !app_assoc.
    + rewrite filter_cons_False by (simpl; congruence). simpl. by rewrite IH.
Qed.

Lemma writeToConceptAndSpecFiles_run (specs : list loc) (s s' : state)
    (res : option (list string * list string)) :
  rangeVisitsAll w →
  writeToConceptAndSpecFiles w specs sr cr s = (s', res) →
  ∃ written saved,
    trace s' = trace s ++ (saveSpec w <$> written) ++ (saveConcept <$> saved)
    ∧ (∀ spec, spec ∈ written →
         ∃ p, p ∈ specs ∧ flag_get sr p = true ∧ specHeap s !! p = Some spec)
    ∧ (∀ f c, (f, c) ∈ saved →
         flag_get cr f = true
         ∧ formatConcepts w (conceptsMap s) !! f = Some c)
    ∧ (∀ sf cf, res = Some (sf, cf) →
         sf = specification.fileName <$> written ∧ cf = saved.*1
         ∧ (∀ p, p ∈ specs → flag_get sr p = true →
                 ∃ spec, specHeap s !! p = Some spec ∧ spec ∈ written)
         ∧ (∀ f c, flag_get cr f = true →
                   formatConcepts w (conceptsMap s) !! f = Some c →
                   (f, c) ∈ saved)).
Proof.
  intros Hrange Hrun. unfold writeToConceptAndSpecFiles in Hrun.
  rewrite run_bind in Hrun.
  destruct (forEach (writeSpec w sr) [] specs s) as [s1 r1] eqn:Hspecs.
  apply writeSpecs_run in Hspecs
    as (Hheap & Hconcepts & written & Htrace & Hin & Hres).
  exists written. destruct r1 as [sf|].
  - rewrite run_bind in Hrun. simpl in Hrun. rewrite run_bind in Hrun.
    rewrite writeConcepts_run in Hrun. simpl in Hrun.
    rewrite Hconcepts, run_ret in Hrun. simplify_eq. eexists. simpl. split.
    { by rewrite Htrace, <- app_assoc. }
    split; [done|].
    assert (∀ f c,
              (f, c) ∈ filter (λ e, flag_get cr e.1 = true)
                        (rangeOrder w _
                           (map_to_list
                              (formatConcepts w (conceptsMap s))))
              ↔ flag_get cr f = true
                ∧ formatConcepts w (conceptsMap s) !! f = Some c) as Hsaved.
    { intros f c. rewrite list_elem_of_filter, (Hrange _ _).
      rewrite elem_of_map_to_list. done. }
    split; [intros f c; by apply Hsaved|].
    intros sf' cf' ?. simplify_eq. destruct (Hres _ eq_refl) as [-> Hall].
    split; [done|]. split; [done|]. split; [done|].
    intros f c ? ?. by apply Hsaved.
  - simplify_eq. exists []. simpl. split; [by rewrite app_nil_r|].
    split; [done|]. split; [by intros ? ? ?%elem_of_nil|]. done.
Qed.

End Persistence.

(** ** The main result of an attempt *)

(** Decides a statement about the contents at two positions of a short
    explicit history. *)
Ltac by_positions :=
  let i := fresh "i" in
  let j := fresh "j" in
  intros i j ? ? ? ? ?;
  do 5 (try destruct i as [|i]); do 5 (try destruct j as [|j]);
  simpl in *; rewrite ?lookup_nil in *; simplify_eq; try lia;
  simpl in *; try done; try congruence.

(** Identifies the two readings of one answer of the world. *)
Ltac same_answers :=
  repeat match goal with
         | H1 : ?x = _, H2 : ?x = _ |- _ => rewrite H1 in H2; simplify_eq
         end.

Section MainResult.

Context (w : World).

Lemma historyShape_sticks h res : historyShape h res → failureSticks h.
Proof.
  intros [|r0 H0 He|r0 err H0 He|r0 files H0 He]; split; by_positions.
Qed.

Lemma historyShape_failed h res :
  historyShape h res →
  (res = None ∨ ∃ r, res = Some r ∧ success r = false) →
  Forall (λ r, success r = false) h.
Proof.
  intros [|r0 H0 He|r0 err H0 He|r0 files H0 He] Hres.
  - constructor.
  - by repeat constructor.
  - by repeat constructor.
  - destruct Hres as [?|(r & ? & Hr)]; [done|]. by simplify_eq.
Qed.

Lemma performRefactoringOn_history agent specs s s' res :
  performRefactoringOn w agent specs s = (s', res) →
  ∃ h, mainResult s' = mainResult s ++ h ∧ historyShape h res.
Proof.
  intros Hrun.
  pose proof (rephraseInSpecsAndConcepts_sameMain w agent specs s) as Hmain1.
  destruct (rephraseInSpecsAndConcepts w agent specs s)
    as [s1 [[[sr cr] agent']|]] eqn:Hrephrase.
  - pose proof (writeToConceptAndSpecFiles_sameMain w specs sr cr s1)
      as Hmain2.
    destruct (writeToConceptAndSpecFiles w specs sr cr s1)
      as [s2 [[sf cf]|]] eqn:Hwrite.
    + destruct (performRefactoringOn_run w _ _ _ _ _ _ _ _ _ _ _ _
                  Hrephrase Hwrite Hrun) as (writes & Hrunner & Hmain & _).
      eexists. split; [exact Hmain|].
      destruct Hrunner; by constructor.
    + unfold performRefactoringOn in Hrun.
      rewrite run_bind, Hrephrase in Hrun. rewrite run_bind, Hwrite in Hrun.
      simplify_eq. exists []. rewrite app_nil_r. split; [|constructor].
      unfold sameMain in *. simpl in *. congruence.
  - unfold performRefactoringOn in Hrun.
    rewrite run_bind, Hrephrase in Hrun. simplify_eq.
    exists []. rewrite app_nil_r. split; [|constructor]. done.
Qed.

End MainResult.

(** *** A failed runner stage *)

(** The runner stages read the two steps of the agent only: the concept
    flag that the rewrite of the documents sets does not bear on them. *)
Lemma getStepNameFromRunner_steps w agent agent' runner :
  oldStep agent' = oldStep agent →
  getStepNameFromRunner w agent' runner = getStepNameFromRunner w agent runner.
Proof. intros Hold. unfold getStepNameFromRunner. by rewrite Hold. Qed.

Lemma createRefactorRequest_steps w agent agent' runner stepName :
  oldStep agent' = oldStep agent → newStep agent' = newStep agent →
  createRefactorRequest w agent' runner stepName
  = createRefactorRequest w agent runner stepName.
Proof.
  intros Hold Hnew.
  unfold createRefactorRequest, generateNewStepName, createOrderOfArgs.
  rewrite Hold, Hnew.
  destruct (getStepValueFor w (oldStep agent) stepName) as [err|sv]; [done|].
  destruct (createOrderOfArgs_range _ _ _ _) as [orderMap|]; [|done]. simpl.
  by destruct (substituteArgs _ _ _ _).
Qed.

Lemma requestRunnerForRefactoring_steps w agent agent' runner stepName :
  oldStep agent' = oldStep agent → newStep agent' = newStep agent →
  requestRunnerForRefactoring w agent' runner stepName
  = requestRunnerForRefactoring w agent runner stepName.
Proof.
  intros Hold Hnew. unfold requestRunnerForRefactoring.
  by rewrite (createRefactorRequest_steps w agent agent').
Qed.

Section FailedStage.

Context (w : World).

Lemma rephraseInSpecsAndConcepts_steps agent specs s sr cr agent' :
  (rephraseInSpecsAndConcepts w agent specs s).2 = Some (sr, cr, agent') →
  oldStep agent' = oldStep agent ∧ newStep agent' = newStep agent.
Proof.
  intros Hrun. unfold rephraseInSpecsAndConcepts in Hrun.
  rewrite run_bind in Hrun.
  destruct (createOrderOfArgs agent) as [orderMap|]; [|done].
  simpl in Hrun. rewrite run_bind in Hrun.
  destruct (forEach (renameSpec w _ _ orderMap) ∅ specs s)
    as [s1 [sr1|]]; [|done].
  rewrite run_bind in Hrun. simpl in Hrun. rewrite run_bind in Hrun.
  destruct (forEach (renameConcept w _ _ orderMap) _ _ s1)
    as [s2 [[cr2 isC]|]]; [|done].
  simpl in Hrun. by simplify_eq.
Qed.

Lemma stageFailed_steps agent agent' :
  oldStep agent' = oldStep agent → newStep agent' = newStep agent →
  stageFailed w agent → stageFailed w agent'.
Proof.
  intros Hold Hnew [err Hstart|runner err Hstart Hname
                    |runner stepName files err Hstart Hname Hrequest].
  - by eapply connectionStage.
  - eapply stepNameStage; [done|].
    by rewrite (getStepNameFromRunner_steps w agent agent').
  - eapply requestStage; [done| |].
    + by rewrite (getStepNameFromRunner_steps w agent agent').
    + by rewrite (requestRunnerForRefactoring_steps w agent agent').
Qed.

Lemma runnerRun_failed agent r0 writes res :
  runnerRun w agent r0 writes res → success r0 = false →
  stageFailed w agent →
  Forall (λ r, success r = false) writes
  ∧ ∀ r, res = Some r → success r = false.
Proof.
  intros Hrun H0 Hfailed.
  destruct Hrun; destruct Hfailed; same_answers;
    (split; [by repeat constructor|by intros ? [= <-]]).
Qed.

Lemma performRefactoringOn_failed agent specs s s' res h :
  performRefactoringOn w agent specs s = (s', res) →
  mainResult s' = mainResult s ++ h →
  stageFailed w agent →
  Forall (λ r, success r = false) h ∧ ∀ r, res = Some r → success r = false.
Proof.
  intros Hrun Hmain Hfailed.
  destruct (rephraseInSpecsAndConcepts w agent specs s)
    as [s1 [[[sr cr] agent']|]] eqn:Hrephrase.
  - destruct (writeToConceptAndSpecFiles w specs sr cr s1)
      as [s2 [[sf cf]|]] eqn:Hwrite.
    + destruct (performRefactoringOn_run w _ _ _ _ _ _ _ _ _ _ _ _
                  Hrephrase Hwrite Hrun) as (writes & Hrunner & Hmain' & _).
      rewrite Hmain' in Hmain. apply app_inv_head in Hmain. subst h.
      destruct (rephraseInSpecsAndConcepts_steps agent specs s sr cr agent')
        as [Hold Hnew]; [by rewrite Hrephrase|].
      destruct (runnerRun_failed agent' _ _ _ Hrunner eq_refl
                  (stageFailed_steps _ _ Hold Hnew Hfailed)) as [Hall Hres].
      split; [by constructor|done].
    + unfold performRefactoringOn in Hrun.
      rewrite run_bind, Hrephrase in Hrun. rewrite run_bind, Hwrite in Hrun.
      simplify_eq. split; [|done].
      pose proof (rephraseInSpecsAndConcepts_sameMain w agent specs s) as H1.
      pose proof (writeToConceptAndSpecFiles_sameMain w specs sr cr s1) as H2.
      rewrite Hrephrase in H1. rewrite Hwrite in H2.
      unfold sameMain in *. simpl in *.
      rewrite H2, H1 in Hmain.
      rewrite <- (app_nil_r (mainResult s)) in Hmain at 1.
      apply app_inv_head in Hmain. subst h. constructor.
  - unfold performRefactoringOn in Hrun.
    rewrite run_bind, Hrephrase in Hrun. simplify_eq. split; [|done].
    pose proof (rephraseInSpecsAndConcepts_sameMain w agent specs s) as H1.
    rewrite Hrephrase in H1. unfold sameMain in *. simpl in *.
    rewrite H1 in Hmain.
    rewrite <- (app_nil_r (mainResult s)) in Hmain at 1.
    apply app_inv_head in Hmain. subst h. constructor.
Qed.

End FailedStage.

Lemma performRephraseRefactoring_history (w : World)
    (oldStepText newStepText : string) (s s' : state)
    (res : option refactoringResult) :
  performRephraseRefactoring w oldStepText newStepText s = (s', res) →
  ∃ h, mainResult s' = mainResult s ++ h
       ∧ failureSticks h
       ∧ ∀ agent,
           (getRefactorAgent w oldStepText newStepText s).2
           = Some (inr agent) →
           stageFailed w agent →
           Forall (λ r, success r = false) h
           ∧ ∀ r, res = Some r → success r = false.
Proof.
  intros Hrun.
  assert (mainResult s' = mainResult s →
          (∀ r, res = Some r → success r = false) →
          ∃ h, mainResult s' = mainResult s ++ h ∧ failureSticks h
               ∧ ∀ agent,
                   (getRefactorAgent w oldStepText newStepText s).2
                   = Some (inr agent) →
                   stageFailed w agent →
                   Forall (λ r, success r = false) h
                   ∧ ∀ r, res = Some r → success r = false)
    as Hnone.
  { intros Hs' Hres. exists []. rewrite app_nil_r. split; [done|].
    split; [split; by_positions|]. intros agent _ _. by split. }
  unfold performRephraseRefactoring in Hrun.
  case_bool_decide.
  { rewrite run_ret in Hrun. simplify_eq. apply Hnone; [done|].
    by intros r [= <-]. }
  rewrite run_bind in Hrun.
  pose proof (getRefactorAgent_sameMain w oldStepText newStepText s) as Hmain1.
  destruct (getRefactorAgent w oldStepText newStepText s)
    as [s1 [[err|agent]|]]; unfold sameMain in Hmain1; simpl in Hmain1.
  { rewrite run_ret in Hrun. simplify_eq. apply Hnone; [done|].
    by intros r [= <-]. }
  2:{ simplify_eq. by apply Hnone. }
  rewrite run_bind in Hrun. simpl in Hrun.
  destruct (GetProjectRoot w) as [err|root].
  { rewrite run_ret in Hrun. simplify_eq. apply Hnone; [done|].
    by intros r [= <-]. }
  rewrite run_bind in Hrun. simpl in Hrun.
  destruct (findSpecs w root) as [found specParseResults].
  rewrite run_bind in Hrun. set (s2 := mkState _ _ _ _) in Hrun.
  pose proof (allocSpecs_sameMain found [] s2) as Hmain3.
  destruct (allocSpecs found [] s2) as [s3 [specs|]];
    unfold sameMain in Hmain3; subst s2; simpl in Hmain3.
  2:{ simplify_eq. apply Hnone; [congruence|done]. }
  destruct (negb _) eqn:Hspecs in Hrun.
  { rewrite run_ret in Hrun. simplify_eq. apply Hnone; [congruence|].
    intros r [= <-]. by apply negb_true_iff. }
  rewrite run_bind in Hrun. simpl in Hrun.
  destruct (createConceptsDictionary w) as [conceptDictionary parseResult].
  rewrite run_bind in Hrun. simpl in Hrun.
  destruct (negb _) eqn:Hconcepts in Hrun.
  { rewrite run_ret in Hrun. simplify_eq. apply Hnone; [simpl; congruence|].
    intros r [= <-]. by apply negb_true_iff. }
  rewrite run_bind in Hrun. set (s4 := mkState _ _ _ _) in Hrun.
  destruct (performRefactoringOn w agent specs s4) as [s5 res5] eqn:Hon.
  destruct (performRefactoringOn_history _ _ _ _ _ _ Hon)
    as (h & Hmain & Hshape).
  pose proof (performRefactoringOn_failed w _ _ _ _ _ _ Hon Hmain) as Hfailed.
  assert (mainResult s5 = mainResult s ++ h) as Hmain'.
  { rewrite Hmain. subst s4. simpl. congruence. }
  clear Hmain Hon. clearbody s4. destruct res5 as [r5|].
  - set (ws := result_warnings _) in Hrun. clearbody ws.
    inversion Hshape as [| |r0 err H0 He|r0 files H0 He]; subst.
    + rewrite (run_update_read _ _ (mainResult s ++ [r0])
                 (appendError err r0)) in Hrun
        by (by rewrite Hmain', <- app_assoc).
      simplify_eq. simpl. eexists [r0; appendError err r0; _].
      split; [by rewrite <- app_assoc|]. split; [split; by_positions|].
      intros agent' [= <-] _. split; [by repeat constructor|].
      by intros ? [= <-].
    + rewrite (run_update_read _ _
                 (mainResult s ++ [r0; setSuccess true r0])
                 (setRunnerFilesChanged files (setSuccess true r0))) in Hrun
        by (by rewrite Hmain', <- app_assoc).
      simplify_eq. simpl. eexists [r0; setSuccess true r0; _; _].
      split; [by rewrite <- app_assoc|]. split; [split; by_positions|].
      intros agent' [= <-] Hstage.
      destruct (Hfailed Hstage) as [_ Hres]. by specialize (Hres _ eq_refl).
  - simplify_eq. exists h. split; [done|].
    split; [by eapply historyShape_sticks|].
    intros agent' [= <-] Hstage. destruct (Hfailed Hstage) as [Hall _].
    by split.
Qed.

(** C2. In [performRefactoringOn] the main result is created with
    [success = false], and the flag is written [true] only at the
    successful end.  So among the successive contents of the object: once
    one records the error of a failed stage, none from there on has
    [success = true]; the flag never goes from true to false and back to
    true; in a run that fails or panics no content has [success = true] at
    all; and when a runner stage fails, be it the connection, the step name
    or the refactor request, every content written in the run has
    [success = false], as has the result handed back.  The same holds over
    the whole attempt of [performRephraseRefactoring], whose last write
    only adds warnings. *)
Theorem performRefactoringOn_failure_sticks :
  (∀ (w : World) (agent : rephraseRefactorer) (specs : list loc) (s : state),
     let run := performRefactoringOn w agent specs s in
     ∃ h, mainResult run.1 = mainResult s ++ h
          ∧ failureSticks h
          ∧ ((run.2 = None ∨ ∃ r, run.2 = Some r ∧ success r = false) →
             Forall (λ r, success r = false) h)
          ∧ (stageFailed w agent →
             Forall (λ r, success r = false) h
             ∧ ∀ r, run.2 = Some r → success r = false))
  ∧ (∀ (w : World) (oldStepText newStepText : string) (s : state),
       let run := performRephraseRefactoring w oldStepText newStepText s in
       ∃ h, mainResult run.1 = mainResult s ++ h
            ∧ failureSticks h
            ∧ ∀ agent,
                (getRefactorAgent w oldStepText newStepText s).2
                = Some (inr agent) →
                stageFailed w agent →
                Forall (λ r, success r = false) h
                ∧ ∀ r, run.2 = Some r → success r = false).
Proof.
  split.
  - intros w agent specs s run. subst run.
    destruct (performRefactoringOn w agent specs s) as [s' res] eqn:Hrun.
    destruct (performRefactoringOn_history _ _ _ _ _ _ Hrun)
      as (h & Hmain & Hshape).
    exists h. split; [done|]. split; [by eapply historyShape_sticks|].
    split; [by eapply historyShape_failed|].
    by eapply performRefactoringOn_failed.
  - intros w oldStepText newStepText s run. subst run.
    destruct (performRephraseRefactoring w oldStepText newStepText s)
      as [s' res] eqn:Hrun.
    by apply performRephraseRefactoring_history.
Qed.

(** On the sample project with a runner that does not know the step, the
    step name stage fails: the main result is created false, takes the
    error, and is never true. *)
Lemma performRefactoringOn_failure_sticks_witness :
  ∃ h, mainResult (performRefactoringOn SampleRun.stepUnknown Sample.agent
                     SampleRun.specs SampleRun.loaded).1 = h
       ∧ success <$> h = [false; false]
       ∧ Forall (λ r, success r = false) h.
Proof.
  destruct (proj1 performRefactoringOn_failure_sticks
              SampleRun.stepUnknown Sample.agent SampleRun.specs
              SampleRun.loaded) as (h & Hmain & _ & _ & Hfailed).
  destruct Hfailed as [Hall _].
  { eapply (stepNameStage _ _ Sample.runner); vm_compute; reflexivity. }
  exists h. split; [exact Hmain|]. split; [|exact Hall].
  vm_compute in Hmain. by subst h.
Defined.

(** ** Documents without an occurrence of the old step *)

Section Unflagged.

Context (w : World) (old new : step) (orderMap : gmap Z Z).

Lemma renameAll_no_occurrence (ss : list step) (b : bool) :
  (∀ st, st ∈ ss → isOccurrence w old st = false) →
  renameAll w ss old new b orderMap = (ss, b).
Proof.
  revert b. induction ss as [|st ss IH]; intros b Hno; simpl; [done|].
  unfold rename. rewrite (Hno st) by by left.
  rewrite IH; [done|]. intros st' Hst'. apply Hno. by right.
Qed.

Lemma renameSteps_no_occurrence (spec : specification.t) :
  (∀ st, st ∈ specification.steps spec → isOccurrence w old st = false) →
  renameSteps w spec old new orderMap = (spec, false).
Proof.
  intros Hno. unfold renameSteps. rewrite renameAll_no_occurrence by done.
  by destruct spec.
Qed.

(** A specification without an occurrence keeps its content and a false
    flag, however often the loop meets it. *)
Lemma renameSpecs_unflagged (p : loc) (spec : specification.t)
    (specs : list loc) (acc : gmap loc bool) (s : state) :
  (∀ st, st ∈ specification.steps spec → isOccurrence w old st = false) →
  specHeap s !! p = Some spec → flag_get acc p = false →
  let run := forEach (renameSpec w old new orderMap) acc specs s in
  specHeap run.1 !! p = Some spec
  ∧ ∀ sr, run.2 = Some sr → flag_get sr p = false.
Proof.
  intros Hno Hp Hflag run. subst run.
  apply (forEach_inv
           (λ r s', specHeap s' !! p = Some spec
                    ∧ ∀ sr, r = Some sr → flag_get sr p = false)
           (renameSpec w old new orderMap) specs).
  - intros acc' q s' _ [Hp' Hflag']. specialize (Hflag' _ eq_refl).
    unfold renameSpec. rewrite run_bind. simpl.
    destruct (specHeap s' !! q) as [spec'|] eqn:Hq; simpl; [|done].
    rewrite run_bind. simpl.
    destruct (decide (q = p)) as [->|Hne].
    + simplify_eq. rewrite renameSteps_no_occurrence by done.
      rewrite run_bind. simpl. rewrite lookup_insert_eq. split; [done|].
      intros sr ?. simplify_eq. unfold flag_get.
      by rewrite lookup_insert_eq.
    + destruct (renameSteps w spec' old new orderMap) as [spec'' b].
      rewrite run_bind. simpl. rewrite lookup_insert_ne by done.
      split; [done|]. intros sr ?. simplify_eq. unfold flag_get in *.
      by rewrite lookup_insert_ne.
  - split; [done|]. intros sr ?. by simplify_eq.
Qed.

Lemma renameItems_unflagged (f fileName : string) (its : list item)
    (acc : list item * gmap string bool * bool) (s : state) :
  (fileName = f →
   ∀ st, stepItem st ∈ its → isOccurrence w old st = false) →
  flag_get acc.1.2 f = false →
  ∃ acc', (forEach (renameItem w fileName old new orderMap) acc its s).2
          = Some acc'
          ∧ flag_get acc'.1.2 f = false.
Proof.
  intros Hno Hflag.
  pose proof (forEach_inv
                (λ r _, ∃ acc', r = Some acc' ∧ flag_get acc'.1.2 f = false)
                (renameItem w fileName old new orderMap) its) as Hinv.
  apply Hinv; [|by exists acc]. clear Hinv.
  intros [[visited cfr] isC] it s' Hit (acc' & ? & Hflag'). simplify_eq.
  simpl in Hflag'. unfold renameItem.
  destruct (decide (fileName = f)) as [->|Hne].
  - destruct it as [st|text].
    + rewrite run_bind. simpl. unfold rename.
      rewrite (Hno eq_refl st Hit). simpl. eexists. split; [done|]. simpl.
      unfold flag_get in *. rewrite lookup_insert_eq. simpl.
      by rewrite Hflag'.
    + simpl. eexists. split; [done|]. simpl. unfold flag_get in *.
      rewrite lookup_insert_eq. simpl. by rewrite Hflag'.
  - destruct it as [st|text].
    + rewrite run_bind. simpl.
      destruct (rename w st old new _ orderMap isC) as [[st' b] isC'].
      simpl. eexists. split; [done|]. simpl. unfold flag_get in *.
      by rewrite lookup_insert_ne.
    + simpl. eexists. split; [done|]. simpl. unfold flag_get in *.
      by rewrite lookup_insert_ne.
Qed.

Lemma renameConcepts_unflagged (f : string)
    (entries : list (string * concept.t)) (acc : gmap string bool * bool)
    (s : state) :
  (∀ key c st, (key, c) ∈ entries → concept.fileName c = f →
               stepItem st ∈ items (concept.conceptStep c) →
               isOccurrence w old st = false) →
  flag_get acc.1 f = false →
  ∃ acc', (forEach (renameConcept w old new orderMap) acc entries s).2
          = Some acc'
          ∧ flag_get acc'.1 f = false.
Proof.
  intros Hno Hflag.
  pose proof (forEach_inv
                (λ r _, ∃ acc', r = Some acc' ∧ flag_get acc'.1 f = false)
                (renameConcept w old new orderMap) entries) as Hinv.
  apply Hinv; [|by exists acc]. clear Hinv.
  intros [cfr isC] [key c] s' Hentry (acc' & ? & Hflag'). simplify_eq.
  simpl in Hflag'. unfold renameConcept. rewrite run_bind.
  match goal with
  | |- context [forEach ?body ?init ?its s'] =>
      destruct (renameItems_unflagged f (concept.fileName c) its init s')
        as ([[items' cfr'] isC'] & Hitems & Hflag'');
      [ intros Hfile st Hst; by eapply Hno
      | simpl; unfold flag_get in *;
        destruct (decide (concept.fileName c = f)) as [->|Hne];
        [ rewrite lookup_insert_eq; simpl; by rewrite Hflag', andb_false_r
        | by rewrite lookup_insert_ne ]
      | ];
      destruct (forEach body init its s') as [s'' r]
  end.
  simpl in Hitems. subst r. rewrite run_bind. simpl.
  eexists. split; [done|]. done.
Qed.

End Unflagged.

(** ** Documents with an occurrence of the old step *)

Section Flagged.

Context (w : World) (old new : step) (orderMap : gmap Z Z).

Lemma forEach_app {A B} (f : B → A → Eff B) (acc : B) (l1 l2 : list A)
    (s : state) :
  forEach f acc (l1 ++ l2) s
  = match forEach f acc l1 s with
    | (s', Some acc') => forEach f acc' l2 s'
    | (s', None) => (s', None)
    end.
Proof.
  revert acc s. induction l1 as [|x l1 IH]; intros acc s; simpl; [done|].
  rewrite !run_bind. destruct (f acc x s) as [s' [acc'|]]; [apply IH|done].
Qed.

Lemma forEach_cons {A B} (f : B → A → Eff B) (acc : B) (x : A) (l : list A)
    (s : state) :
  forEach f acc (x :: l) s
  = match f acc x s with
    | (s', Some acc') => forEach f acc' l s'
    | (s', None) => (s', None)
    end.
Proof. reflexivity. Qed.

Lemma renameAll_flag_kept (ss : list step) :
  (renameAll w ss old new true orderMap).2 = true.
Proof.
  induction ss as [|st ss IH]; simpl; [done|]. unfold rename.
  destruct (isOccurrence w old st);
    destruct (renameAll w ss old new true orderMap); by simplify_eq/=.
Qed.

Lemma renameAll_occurrence (ss : list step) (st : step) (b : bool) :
  st ∈ ss → isOccurrence w old st = true →
  (renameAll w ss old new b orderMap).2 = true.
Proof.
  revert b. induction ss as [|st' ss IH]; intros b Hin Hocc.
  - by apply elem_of_nil in Hin.
  - simpl. unfold rename. apply elem_of_cons in Hin as [<-|Hin].
    + rewrite Hocc. pose proof (renameAll_flag_kept ss) as Hkept.
      destruct (renameAll w ss old new true orderMap). by simplify_eq/=.
    + specialize (IH (if isOccurrence w old st' then true else b) Hin Hocc).
      destruct (isOccurrence w old st');
        destruct (renameAll w ss old new _ orderMap); by simplify_eq/=.
Qed.

(** Visiting other specifications leaves the one at [p] and its flag
    alone. *)
Lemma renameSpecs_others (p : loc) (specs : list loc) (acc : gmap loc bool)
    (s : state) :
  p ∉ specs →
  let run := forEach (renameSpec w old new orderMap) acc specs s in
  specHeap run.1 !! p = specHeap s !! p
  ∧ ∀ sr, run.2 = Some sr → flag_get sr p = flag_get acc p.
Proof.
  intros Hp run. subst run.
  apply (forEach_inv
           (λ r s', specHeap s' !! p = specHeap s !! p
                    ∧ ∀ sr, r = Some sr → flag_get sr p = flag_get acc p)
           (renameSpec w old new orderMap) specs).
  - intros acc' q s' Hq [Hheap Hflag]. specialize (Hflag _ eq_refl).
    assert (q ≠ p) as Hne by (by intros ->).
    unfold renameSpec. rewrite run_bind. simpl.
    destruct (specHeap s' !! q) as [spec'|]; simpl; [|done].
    rewrite run_bind. simpl.
    destruct (renameSteps w spec' old new orderMap) as [spec'' b].
    rewrite run_bind. simpl. rewrite lookup_insert_ne by done.
    split; [done|]. intros sr ?. simplify_eq. unfold flag_get in *.
    by rewrite lookup_insert_ne.
  - split; [done|]. intros sr ?. by simplify_eq.
Qed.

Lemma renameSpecs_flagged (p : loc) (spec : specification.t) (st : step)
    (specs : list loc) (s s' : state) (sr : gmap loc bool) :
  NoDup specs → p ∈ specs → specHeap s !! p = Some spec →
  st ∈ specification.steps spec → isOccurrence w old st = true →
  forEach (renameSpec w old new orderMap) ∅ specs s = (s', Some sr) →
  flag_get sr p = true.
Proof.
  intros Hnodup Hp Hspec Hst Hocc Hrun.
  apply list_elem_of_split in Hp as (l1 & l2 & ->).
  apply NoDup_app in Hnodup as (_ & Hl1 & [Hl2 _]%NoDup_cons).
  rewrite forEach_app in Hrun.
  destruct (renameSpecs_others p l1 ∅ s) as [Hheap1 _].
  { intros Hin. by apply (Hl1 p Hin), list_elem_of_here. }
  destruct (forEach (renameSpec w old new orderMap) ∅ l1 s)
    as [s1 [sr1|]]; [|done].
  simpl in Hheap1, Hrun. rewrite run_bind in Hrun.
  unfold renameSpec at 1 in Hrun. rewrite run_bind in Hrun. simpl in Hrun.
  rewrite Hheap1, Hspec in Hrun. rewrite run_bind in Hrun. simpl in Hrun.
  pose proof (renameAll_occurrence (specification.steps spec) st false
                Hst Hocc) as Hflag.
  unfold renameSteps in Hrun.
  destruct (renameAll w (specification.steps spec) old new false orderMap)
    as [steps' b]. simpl in Hflag. subst b.
  rewrite run_bind in Hrun. simpl in Hrun.
  match type of Hrun with
  | forEach _ ?acc l2 ?s2 = _ =>
      destruct (renameSpecs_others p l2 acc s2 Hl2) as [_ Hflag2]
  end.
  rewrite Hrun in Hflag2. rewrite (Hflag2 _ eq_refl). unfold flag_get.
  by rewrite lookup_insert_eq.
Qed.

(** A true flag of a concept file stays true. *)
Lemma renameItems_flag_kept (f fileName : string) (its : list item)
    (visited : list item) (cfr : gmap string bool) (isC : bool) (s : state) :
  flag_get cfr f = true →
  ∀ acc', (forEach (renameItem w fileName old new orderMap)
             (visited, cfr, isC) its s).2 = Some acc' →
          flag_get acc'.1.2 f = true.
Proof.
  intros Hflag. revert visited cfr isC s Hflag.
  intros visited0 cfr0 isC0 s Hflag.
  apply (forEach_inv
           (λ r _, ∀ acc', r = Some acc' → flag_get acc'.1.2 f = true)
           (renameItem w fileName old new orderMap) its).
  - intros [[visited cfr] isC] it s' _ Hflag' acc' Hacc'.
    specialize (Hflag' _ eq_refl). simpl in Hflag'. unfold renameItem in Hacc'.
    destruct it as [st|text].
    + rewrite run_bind in Hacc'. simpl in Hacc'.
      destruct (rename w st old new _ orderMap isC) as [[st' b] isC'].
      simpl in Hacc'. simplify_eq. simpl. unfold flag_get in *.
      destruct (decide (fileName = f)) as [->|Hne].
      * rewrite lookup_insert_eq. simpl. rewrite Hflag'. apply orb_true_r.
      * by rewrite lookup_insert_ne.
    + simpl in Hacc'. simplify_eq. simpl. unfold flag_get in *.
      destruct (decide (fileName = f)) as [->|Hne].
      * rewrite lookup_insert_eq. simpl. by rewrite Hflag'.
      * by rewrite lookup_insert_ne.
  - intros acc' ?. by simplify_eq.
Qed.

Lemma renameItems_flagged (fileName : string) (its : list item) (st : step)
    (acc acc' : list item * gmap string bool * bool) (s : state) :
  stepItem st ∈ its → isOccurrence w old st = true →
  (forEach (renameItem w fileName old new orderMap) acc its s).2 = Some acc' →
  flag_get acc'.1.2 fileName = true.
Proof.
  intros Hin Hocc Hrun. apply list_elem_of_split in Hin as (l1 & l2 & ->).
  rewrite forEach_app in Hrun.
  destruct (forEach (renameItem w fileName old new orderMap) acc l1 s)
    as [s1 [[[visited cfr] isC]|]]; [|done].
  simpl in Hrun. rewrite run_bind in Hrun. unfold renameItem at 1 in Hrun.
  rewrite run_bind in Hrun. simpl in Hrun. unfold rename in Hrun.
  rewrite Hocc in Hrun. simpl in Hrun.
  eapply renameItems_flag_kept; [|exact Hrun]. simpl. unfold flag_get.
  by rewrite lookup_insert_eq.
Qed.

Lemma renameConcept_run (cfr : gmap string bool) (isC : bool) (key : string)
    (c : concept.t) (s : state) :
  renameConcept w old new orderMap (cfr, isC) (key, c) s
  = match forEach (renameItem w (concept.fileName c) old new orderMap)
            ([],
             <[concept.fileName c :=
                 negb (bool_decide (is_Some (cfr !! concept.fileName c)))
                 && false
                 || flag_get cfr (concept.fileName c)]> cfr,
             isC)
            (items (concept.conceptStep c)) s with
    | (s', Some (items', cfr', isC')) =>
        (mkState (trace s') (specHeap s')
           (<[key := concept.mk (mkConceptStep items') (concept.fileName c)]>
              (conceptsMap s'))
           (mainResult s'),
         Some (cfr', isC'))
    | (s', None) => (s', None)
    end.
Proof.
  unfold renameConcept. rewrite run_bind.
  by destruct (forEach _ _ _ s) as [s' [[[items' cfr'] isC']|]].
Qed.

Lemma header_flag_kept (cfr : gmap string bool) (f fileName : string) :
  flag_get cfr f = true →
  flag_get (<[fileName :=
                negb (bool_decide (is_Some (cfr !! fileName))) && false
                || flag_get cfr fileName]> cfr) f = true.
Proof.
  intros Hflag. unfold flag_get in *.
  destruct (decide (fileName = f)) as [->|Hne].
  - rewrite lookup_insert_eq. simpl. rewrite Hflag. apply orb_true_r.
  - by rewrite lookup_insert_ne.
Qed.

Lemma renameConcepts_flag_kept (f : string)
    (entries : list (string * concept.t)) (acc : gmap string bool * bool)
    (s : state) :
  flag_get acc.1 f = true →
  ∀ acc', (forEach (renameConcept w old new orderMap) acc entries s).2
          = Some acc' →
          flag_get acc'.1 f = true.
Proof.
  intros Hflag.
  apply (forEach_inv
           (λ r _, ∀ acc', r = Some acc' → flag_get acc'.1 f = true)
           (renameConcept w old new orderMap) entries).
  - intros [cfr isC] [key c] s' _ Hflag' acc' Hacc'.
    specialize (Hflag' _ eq_refl). simpl in Hflag'.
    rewrite renameConcept_run in Hacc'.
    destruct (forEach _ _ _ s') as [s'' [[[items' cfr'] isC']|]] eqn:Hitems;
      [|done].
    simpl in Hacc'. simplify_eq. simpl.
    eapply (renameItems_flag_kept f (concept.fileName c) _ _ _ _ s'
              (header_flag_kept _ _ _ Hflag') (items', cfr', isC')).
    by rewrite Hitems.
  - intros acc' ?. by simplify_eq.
Qed.

Lemma renameConcepts_flagged (key : string) (c : concept.t) (st : step)
    (entries : list (string * concept.t)) (acc acc' : gmap string bool * bool)
    (s : state) :
  (key, c) ∈ entries → stepItem st ∈ items (concept.conceptStep c) →
  isOccurrence w old st = true →
  (forEach (renameConcept w old new orderMap) acc entries s).2 = Some acc' →
  flag_get acc'.1 (concept.fileName c) = true.
Proof.
  intros Hin Hst Hocc Hrun. apply list_elem_of_split in Hin as (l1 & l2 & ->).
  rewrite forEach_app in Hrun.
  destruct (forEach (renameConcept w old new orderMap) acc l1 s)
    as [s1 [[cfr isC]|]]; [|done].
  rewrite forEach_cons, renameConcept_run in Hrun.
  destruct (forEach _ _ _ s1) as [s2 [[[items' cfr'] isC']|]] eqn:Hitems;
    [|done].
  eapply renameConcepts_flag_kept; [|exact Hrun]. simpl.
  eapply (renameItems_flagged (concept.fileName c) _ st _ (items', cfr', isC')
            s1 Hst Hocc).
  by rewrite Hitems.
Qed.

End Flagged.

Section Rephrase.

Context (w : World).

Lemma flag_get_empty `{Countable K} (k : K) : flag_get (∅ : gmap K bool) k = false.
Proof. unfold flag_get. by rewrite lookup_empty. Qed.

Lemma renameSpecs_sameConcepts old new orderMap acc specs :
  preserves sameConcepts (forEach (renameSpec w old new orderMap) acc specs).
Proof. unfold renameSpec. frame. Qed.

(** the two loops of [rephraseInSpecsAndConcepts], once the order map is
    there *)
Lemma rephraseInSpecsAndConcepts_loops agent specs s sr cr agent' :
  (rephraseInSpecsAndConcepts w agent specs s).2 = Some (sr, cr, agent') →
  ∃ orderMap s1 isC,
    createOrderOfArgs agent = Some orderMap
    ∧ forEach (renameSpec w (oldStep agent) (newStep agent) orderMap)
        ∅ specs s = (s1, Some sr)
    ∧ conceptsMap s1 = conceptsMap s
    ∧ (forEach (renameConcept w (oldStep agent) (newStep agent) orderMap)
         (∅, false)
         (rangeOrder w _ (map_to_list (conceptsMap s1))) s1).2
      = Some (cr, isC).
Proof.
  intros Hrun. unfold rephraseInSpecsAndConcepts in Hrun.
  rewrite run_bind in Hrun.
  destruct (createOrderOfArgs agent) as [orderMap|]; [|done].
  simpl in Hrun. rewrite run_bind in Hrun.
  pose proof (renameSpecs_sameConcepts (oldStep agent) (newStep agent)
                orderMap ∅ specs s) as Hconcepts.
  destruct (forEach (renameSpec w _ _ orderMap) ∅ specs s)
    as [s1 [sr1|]] eqn:Hspecs; [|done].
  rewrite run_bind in Hrun. simpl in Hrun. rewrite run_bind in Hrun.
  destruct (forEach (renameConcept w _ _ orderMap) _ _ s1)
    as [s2 [[cr2 isC]|]] eqn:Hloop; [|done].
  simpl in Hrun. simplify_eq. exists orderMap, s1, isC.
  by rewrite Hloop.
Qed.

Lemma rephraseInSpecsAndConcepts_unflagged agent specs s sr cr agent' :
  rangeVisitsAll w →
  (rephraseInSpecsAndConcepts w agent specs s).2 = Some (sr, cr, agent') →
  (∀ p spec,
     specHeap s !! p = Some spec →
     (∀ st, st ∈ specification.steps spec →
            isOccurrence w (oldStep agent) st = false) →
     flag_get sr p = false)
  ∧ (∀ f,
       (∀ key c st,
          conceptsMap s !! key = Some c → concept.fileName c = f →
          stepItem st ∈ items (concept.conceptStep c) →
          isOccurrence w (oldStep agent) st = false) →
       flag_get cr f = false).
Proof.
  intros Hrange Hrun.
  destruct (rephraseInSpecsAndConcepts_loops _ _ _ _ _ _ Hrun)
    as (orderMap & s1 & isC & _ & Hspecs & Hsame & Hconcepts).
  split.
  - intros p spec Hp Hno.
    destruct (renameSpecs_unflagged w (oldStep agent) (newStep agent)
                orderMap p spec specs ∅ s Hno Hp (flag_get_empty p))
      as [_ Hflag].
    apply Hflag. by rewrite Hspecs.
  - intros f Hno.
    destruct (renameConcepts_unflagged w (oldStep agent) (newStep agent)
                orderMap f
                (rangeOrder w _ (map_to_list (conceptsMap s1)))
                (∅, false) s1) as (acc' & Hacc' & Hflag).
    + intros key c st Hentry. rewrite (Hrange _ _) in Hentry.
      apply elem_of_map_to_list in Hentry. rewrite Hsame in Hentry.
      by eapply Hno.
    + apply flag_get_empty.
    + rewrite Hconcepts in Hacc'. by simplify_eq.
Qed.

Lemma rephraseInSpecsAndConcepts_flagged agent specs s sr cr agent' :
  rangeVisitsAll w →
  (rephraseInSpecsAndConcepts w agent specs s).2 = Some (sr, cr, agent') →
  (NoDup specs →
   ∀ p spec st,
     p ∈ specs → specHeap s !! p = Some spec →
     st ∈ specification.steps spec →
     isOccurrence w (oldStep agent) st = true →
     flag_get sr p = true)
  ∧ (∀ key c st,
       conceptsMap s !! key = Some c →
       stepItem st ∈ items (concept.conceptStep c) →
       isOccurrence w (oldStep agent) st = true →
       flag_get cr (concept.fileName c) = true).
Proof.
  intros Hrange Hrun.
  destruct (rephraseInSpecsAndConcepts_loops _ _ _ _ _ _ Hrun)
    as (orderMap & s1 & isC & _ & Hspecs & Hsame & Hconcepts).
  split.
  - intros Hnodup p spec st Hp Hspec Hst Hocc.
    by eapply renameSpecs_flagged.
  - intros key c st Hc Hst Hocc.
    eapply (renameConcepts_flagged w _ _ _ key c st _ _ (cr, isC) s1);
      [|done|done|exact Hconcepts].
    rewrite (Hrange _ _), elem_of_map_to_list. by rewrite Hsame.
Qed.

End Rephrase.

(** C3. When a runner stage of [performRefactoringOn] fails, be it the
    connection, the resolution of the step name or the refactor request,
    the result still carries the lists of specification and concept files
    computed and saved by the document stages, with [success = false], no
    runner file, and the error of the failed stage; the error of a failed
    refactor request is prefixed with "Only spec files and concepts
    refactored: ".  The files listed are exactly those saved, and nothing
    but runner calls happens after the saves.  Each list is non-empty as
    soon as a document of its kind was flagged as changed; and so it is
    when a listed specification (the pointers being distinct) or a
    formatted concept file holds an occurrence of the old step. *)
Theorem performRefactoringOn_runner_failure (w : World)
    (agent : rephraseRefactorer) (specs : list loc) (s s1 s2 : state)
    (sr : gmap loc bool) (cr : gmap string bool) (agent' : rephraseRefactorer)
    (sf cf : list string) :
  rangeVisitsAll w →
  rephraseInSpecsAndConcepts w agent specs s = (s1, Some (sr, cr, agent')) →
  writeToConceptAndSpecFiles w specs sr cr s1 = (s2, Some (sf, cf)) →
  let run := performRefactoringOn w agent specs s in
  (∀ err,
     startRunnerAndMakeConnection w = inl err →
     run.2 = Some (mkResult false sf cf []
                     ["Failed to connect to test runner: " +:+ err] []))
  ∧ (∀ runner err,
       startRunnerAndMakeConnection w = inr runner →
       outcome (getStepNameFromRunner w agent' runner) = Some (inl err) →
       run.2 = Some (mkResult false sf cf [] [err] []))
  ∧ (∀ runner stepName files err,
       startRunnerAndMakeConnection w = inr runner →
       outcome (getStepNameFromRunner w agent' runner)
       = Some (inr stepName) →
       outcome (requestRunnerForRefactoring w agent' runner stepName)
       = Some (files, Some err) →
       run.2 = Some (mkResult false sf cf []
                       ["Only spec files and concepts refactored: " +:+ err]
                       []))
  ∧ (∃ written saved,
       trace s2
       = trace s1 ++ (saveSpec w <$> written) ++ (saveConcept <$> saved)
       ∧ sf = specification.fileName <$> written ∧ cf = saved.*1)
  ∧ calls isRunnerCall s2 run.1
  ∧ ((∃ p, p ∈ specs ∧ flag_get sr p = true) → sf ≠ [])
  ∧ ((∃ f, flag_get cr f = true
           ∧ is_Some (formatConcepts w (conceptsMap s1) !! f)) → cf ≠ [])
  ∧ (NoDup specs →
     (∃ p spec st,
        p ∈ specs ∧ specHeap s !! p = Some spec
        ∧ st ∈ specification.steps spec
        ∧ isOccurrence w (oldStep agent) st = true) →
     sf ≠ [])
  ∧ ((∃ key c st,
        conceptsMap s !! key = Some c
        ∧ stepItem st ∈ items (concept.conceptStep c)
        ∧ isOccurrence w (oldStep agent) st = true
        ∧ is_Some (formatConcepts w (conceptsMap s1) !! concept.fileName c)) →
     cf ≠ []).
Proof.
  intros Hrange Hrephrase Hwrite run. subst run.
  destruct (performRefactoringOn w agent specs s) as [s' res] eqn:Hrun.
  destruct (performRefactoringOn_run w _ _ _ _ _ _ _ _ _ _ _ _
              Hrephrase Hwrite Hrun) as (writes & Hrunner & _ & Hcalls).
  destruct (writeToConceptAndSpecFiles_run w sr cr specs s1 s2 _ Hrange Hwrite)
    as (written & saved & Htrace & _ & _ & Hlists).
  destruct (Hlists sf cf eq_refl) as (-> & -> & Hspecs & Hconcepts).
  destruct (rephraseInSpecsAndConcepts_flagged w agent specs s sr cr agent'
              Hrange) as [Hflagged Hflagged']; [by rewrite Hrephrase|].
  assert (∀ p, p ∈ specs → flag_get sr p = true →
               specification.fileName <$> written ≠ []) as Hlisted.
  { intros p Hp Hflag Hnil.
    destruct (Hspecs p Hp Hflag) as (spec & _ & Hspec).
    apply fmap_nil_inv in Hnil. subst. by apply elem_of_nil in Hspec. }
  assert (∀ f, flag_get cr f = true →
               is_Some (formatConcepts w (conceptsMap s1) !! f) →
               saved.*1 ≠ []) as Hlisted'.
  { intros f Hflag [c Hc] Hnil.
    pose proof (Hconcepts f c Hflag Hc) as Hsaved.
    apply fmap_nil_inv in Hnil. subst. by apply elem_of_nil in Hsaved. }
  simpl. repeat split.
  - intros err Hstart. destruct Hrunner; by same_answers.
  - intros runner err Hstart Hname. destruct Hrunner; by same_answers.
  - intros runner stepName files err Hstart Hname Hrequest.
    destruct Hrunner; by same_answers.
  - by exists written, saved.
  - done.
  - intros (p & Hp & Hflag). by eapply Hlisted.
  - intros (f & Hflag & Hf). by eapply Hlisted'.
  - intros Hnodup (p & spec & st & Hp & Hspec & Hst & Hocc).
    eapply Hlisted; [done|]. by eapply Hflagged.
  - intros (key & c & st & Hc & Hst & Hocc & Hf).
    eapply Hlisted'; [|done]. by eapply Hflagged'.
Qed.

(** The sample project with a runner that does not know the step: both
    documents are rewritten and listed, and the result is a failure. *)
Lemma performRefactoringOn_runner_failure_witness :
  (performRefactoringOn SampleRun.stepUnknown Sample.agent SampleRun.specs
     SampleRun.loaded).2
  = Some (mkResult false ["bank.spec"] ["bank.cpt"] []
            ["Step implementation not found: transfer <from> to <to>"] []).
Proof.
  refine (proj1 (proj2 (performRefactoringOn_runner_failure
                          SampleRun.stepUnknown Sample.agent SampleRun.specs
                          SampleRun.loaded _ _ _ _ _ _ _
                          (Sample_rangeVisitsAll _ _ _ _) _ _))
            Sample.runner _ eq_refl _).
  - vm_compute. reflexivity.
  - vm_compute. reflexivity.
  - vm_compute. reflexivity.
Defined.

(** C8. [writeToConceptAndSpecFiles] saves and lists only documents whose
    flag is true: every specification saved is that of a listed pointer
    with a true flag, every concept file saved has a true flag, the lists
    returned name exactly the files saved, and every flagged document is
    among them; so a document whose flag is false is neither listed nor
    written.  And [rephraseInSpecsAndConcepts] leaves the flag false for a
    specification, and for a concept file, without any occurrence of the
    old step. *)
Theorem unchanged_documents_not_written :
  (∀ (w : World) (specs : list loc) (sr : gmap loc bool)
     (cr : gmap string bool) (s : state),
     rangeVisitsAll w →
     let run := writeToConceptAndSpecFiles w specs sr cr s in
     ∃ written saved,
       trace run.1
       = trace s ++ (saveSpec w <$> written) ++ (saveConcept <$> saved)
       ∧ (∀ spec, spec ∈ written →
            ∃ p, p ∈ specs ∧ flag_get sr p = true
                 ∧ specHeap s !! p = Some spec)
       ∧ (∀ f c, (f, c) ∈ saved →
            flag_get cr f = true
            ∧ formatConcepts w (conceptsMap s) !! f = Some c)
       ∧ (∀ sf cf, run.2 = Some (sf, cf) →
            sf = specification.fileName <$> written ∧ cf = saved.*1
            ∧ (∀ p, p ∈ specs → flag_get sr p = true →
                    ∃ spec, specHeap s !! p = Some spec ∧ spec ∈ written)
            ∧ (∀ f c, flag_get cr f = true →
                      formatConcepts w (conceptsMap s) !! f = Some c →
                      (f, c) ∈ saved)))
  ∧ (∀ (w : World) (agent : rephraseRefactorer) (specs : list loc)
       (s : state) (sr : gmap loc bool) (cr : gmap string bool)
       (agent' : rephraseRefactorer),
       rangeVisitsAll w →
       (rephraseInSpecsAndConcepts w agent specs s).2
       = Some (sr, cr, agent') →
       (∀ p spec,
          specHeap s !! p = Some spec →
          (∀ st, st ∈ specification.steps spec →
                 isOccurrence w (oldStep agent) st = false) →
          flag_get sr p = false)
       ∧ (∀ f,
            (∀ key c st,
               conceptsMap s !! key = Some c → concept.fileName c = f →
               stepItem st ∈ items (concept.conceptStep c) →
               isOccurrence w (oldStep agent) st = false) →
            flag_get cr f = false)).
Proof.
  split.
  - intros w specs sr cr s Hrange run. subst run.
    destruct (writeToConceptAndSpecFiles w specs sr cr s) as [s' res] eqn:Hrun.
    exact (writeToConceptAndSpecFiles_run w sr cr specs s s' res Hrange Hrun).
  - intros w agent specs s sr cr agent'.
    apply rephraseInSpecsAndConcepts_unflagged.
Qed.

(** In the sample project the second specification has no occurrence of
    the old step: its flag is false. *)
Lemma unchanged_documents_not_written_witness :
  ∃ sr cr agent',
    (rephraseInSpecsAndConcepts SampleRun.stepUnknown Sample.agent
       SampleRun.specs SampleRun.loaded).2 = Some (sr, cr, agent')
    ∧ flag_get sr 1%nat = false.
Proof.
  eexists _, _, _. split; [vm_compute; reflexivity|].
  refine (proj1 (proj2 unchanged_documents_not_written
                   SampleRun.stepUnknown Sample.agent SampleRun.specs
                   SampleRun.loaded _ _ _ (Sample_rangeVisitsAll _ _ _ _) _)
            1%nat Sample.otherSpec _ _).
  - vm_compute. reflexivity.
  - vm_compute. reflexivity.
  - intros st Hst. apply list_elem_of_singleton in Hst as ->. reflexivity.
Defined.

(** * Further properties of refactor.go *)

(** ** The search and the order map *)

Section Search.

Lemma SliceIndex_loop_least (p : Z → bool) (n : nat) (i : Z) :
  ∃ v, SliceIndex_loop n i (λ j, Some (p j)) = Some v
       ∧ ((v = -1 ∧ ∀ j, i ≤ j < i + Z.of_nat n → p j = false)
          ∨ (i ≤ v < i + Z.of_nat n ∧ p v = true
             ∧ ∀ j, i ≤ j < v → p j = false)).
Proof.
  revert i. induction n as [|n IH]; intros i; simpl.
  - exists (-1). split; [done|]. left. split; [done|]. lia.
  - destruct (p i) eqn:Hi.
    + exists i. split; [done|]. right. split; [lia|]. split; [done|]. lia.
    + destruct (IH (i + 1)) as (v & -> & Hv). exists v. split; [done|].
      destruct Hv as [[-> Hnone]|(Hrange & Hv & Hleast)].
      * left. split; [done|]. intros j Hj.
        destruct (decide (j = i)) as [->|Hne]; [done|]. apply Hnone. lia.
      * right. split; [lia|]. split; [done|]. intros j Hj.
        destruct (decide (j = i)) as [->|Hne]; [done|]. apply Hleast. lia.
Qed.

End Search.

(** X1. For a predicate that does not panic, [SliceIndex] returns the
    least index below [limit] at which the predicate holds, and [-1] when
    it holds at none, in particular when [limit] is zero or negative. *)
Theorem SliceIndex_least (limit : Z) (p : Z → bool) :
  ∃ v, SliceIndex limit (λ i, Some (p i)) = Some v
       ∧ ((v = -1 ∧ ∀ i, 0 ≤ i < limit → p i = false)
          ∨ (0 ≤ v < limit ∧ p v = true ∧ ∀ i, 0 ≤ i < v → p i = false)).
Proof.
  unfold SliceIndex.
  destruct (SliceIndex_loop_least p (Z.to_nat limit) 0) as (v & Hv & Hspec).
  exists v. split; [done|].
  destruct Hspec as [[-> Hnone]|(Hrange & Hp & Hleast)].
  - left. split; [done|]. intros i Hi. apply Hnone. lia.
  - right. split; [lia|]. split; [done|]. intros i Hi. apply Hleast. lia.
Qed.

Section OrderMapShape.

Lemma firstMatch_token (oldArgs : list stepArg) (arg : stepArg) (v : Z) :
  firstMatch oldArgs arg v → v ≠ -1 →
  ∃ a, oldArgs !! Z.to_nat v = Some a ∧ argString a = argString arg.
Proof. intros [[-> _]|(_ & Ha & _)] Hv; [done|exact Ha]. Qed.

Lemma firstMatch_found (oldArgs : list stepArg) (arg : stepArg) (v : Z) :
  firstMatch oldArgs arg v →
  (∃ a, a ∈ oldArgs ∧ argString a = argString arg) → 0 ≤ v < len oldArgs.
Proof.
  intros [[-> Hnone]|(Hrange & _)] (a & Ha & Heq); [|done].
  by destruct (Hnone a Ha).
Qed.

Lemma createOrderOfArgs_values (agent : rephraseRefactorer)
    (orderMap : gmap Z Z) :
  createOrderOfArgs agent = Some orderMap →
  ∀ i arg, args (newStep agent) !! i = Some arg →
    ∃ v, orderMap !! Z.of_nat i = Some v
         ∧ firstMatch (args (oldStep agent)) arg v.
Proof.
  intros Horder.
  destruct (createOrderOfArgs_range_spec (args (oldStep agent)) []
              (args (newStep agent)) ∅) as (m & Hm & _ & Hvalue).
  { intros k. rewrite lookup_empty. unfold len. simpl. split.
    - by intros [? ?].
    - lia. }
  { intros k arg Hk. by rewrite lookup_nil in Hk. }
  change (createOrderOfArgs agent = Some m) in Hm. rewrite Horder in Hm.
  by simplify_eq.
Qed.

End OrderMapShape.

(** X2. When the new arguments render pairwise distinct tokens, the order
    map sends no two new positions to the same old position: positions
    that are not the sentinel are mapped injectively. *)
Theorem createOrderOfArgs_injective (agent : rephraseRefactorer)
    (orderMap : gmap Z Z) (i j : nat) (v : Z) :
  NoDup (argString <$> args (newStep agent)) →
  createOrderOfArgs agent = Some orderMap →
  (i < length (args (newStep agent)))%nat →
  (j < length (args (newStep agent)))%nat →
  orderMap !! Z.of_nat i = Some v → orderMap !! Z.of_nat j = Some v →
  v ≠ -1 → i = j.
Proof.
  intros Hnodup Horder Hi Hj Hvi Hvj Hv.
  pose proof (createOrderOfArgs_values agent orderMap Horder) as Hvalue.
  destruct (lookup_lt_is_Some_2 _ _ Hi) as [argi Hargi].
  destruct (lookup_lt_is_Some_2 _ _ Hj) as [argj Hargj].
  destruct (Hvalue i argi Hargi) as (vi & Hvi' & Hfirsti).
  destruct (Hvalue j argj Hargj) as (vj & Hvj' & Hfirstj).
  simplify_eq.
  destruct (firstMatch_token _ _ _ Hfirsti Hv) as (a & Ha & Hai).
  destruct (firstMatch_token _ _ _ Hfirstj Hv) as (a' & Ha' & Haj).
  simplify_eq.
  eapply (NoDup_lookup (argString <$> args (newStep agent)));
    [done| |]; rewrite list_lookup_fmap.
  - by rewrite Hargi.
  - rewrite Hargj. simpl. congruence.
Qed.

(** The sample step: its new tokens are distinct, and position 0 is sent
    to the old position 1. *)
Lemma createOrderOfArgs_injective_witness : 0%nat = 0%nat.
Proof.
  refine (createOrderOfArgs_injective Sample.agent {[ 0 := 1; 1 := 0 ]}
            0 0 1 _ _ _ _ _ _ _).
  - apply (bool_decide_unpack _). by vm_compute.
  - by vm_compute.
  - simpl. lia.
  - simpl. lia.
  - by vm_compute.
  - by vm_compute.
  - done.
Defined.

(** X3. A rephrasing that keeps the arguments as they are, each token
    occurring once, maps every position to itself: no argument moves and
    none is new. *)
Theorem createOrderOfArgs_identity (agent : rephraseRefactorer)
    (orderMap : gmap Z Z) (i : nat) :
  args (newStep agent) = args (oldStep agent) →
  NoDup (argString <$> args (oldStep agent)) →
  createOrderOfArgs agent = Some orderMap →
  (i < length (args (oldStep agent)))%nat →
  orderMap !! Z.of_nat i = Some (Z.of_nat i).
Proof.
  intros Hsame Hnodup Horder Hi.
  pose proof (createOrderOfArgs_values agent orderMap Horder) as Hvalue.
  rewrite Hsame in Hvalue.
  destruct (lookup_lt_is_Some_2 _ _ Hi) as [arg Harg].
  destruct (Hvalue i arg Harg) as (v & Hv & Hfirst). rewrite Hv. f_equal.
  assert (0 ≤ v < len (args (oldStep agent))) as Hrange.
  { eapply firstMatch_found; [done|]. exists arg. split; [|done].
    by eapply list_elem_of_lookup_2. }
  destruct (firstMatch_token _ _ _ Hfirst) as (a & Ha & Heq); [lia|].
  assert (Z.to_nat v = i) as <-; [|lia].
  eapply (NoDup_lookup (argString <$> args (oldStep agent)));
    [done| |]; rewrite list_lookup_fmap.
  - by rewrite Ha.
  - rewrite Harg. simpl. congruence.
Qed.

(** A step whose text changes and whose arguments stay. *)
Lemma createOrderOfArgs_identity_witness :
  ∃ orderMap,
    createOrderOfArgs
      (mkAgent Sample.oldTransfer
         (setFragments [] Sample.oldTransfer) false) = Some orderMap
    ∧ orderMap !! 1 = Some 1.
Proof.
  eexists. split; [vm_compute; reflexivity|].
  refine (createOrderOfArgs_identity
            (mkAgent Sample.oldTransfer (setFragments [] Sample.oldTransfer)
               false) _ 1 eq_refl _ _ _).
  - apply (bool_decide_unpack _). by vm_compute.
  - vm_compute. reflexivity.
  - simpl. lia.
Defined.

(** ** The refactor request *)

(** X4. The parameter positions hold the whole order map: read back as
    pairs of new and old position they give the order map again, whatever
    order the [range] took, and they are as many as the map has keys. *)
Theorem createParameterPositions_order_map (w : World) (orderMap : gmap Z Z) :
  rangeVisitsAll w →
  list_to_map ((λ position, (NewPosition position, OldPosition position))
                 <$> createParameterPositions w orderMap) = orderMap
  ∧ length (createParameterPositions w orderMap) = size orderMap.
Proof.
  intros Hrange. rewrite createParameterPositions_map.
  rewrite <- list_fmap_compose. split.
  - erewrite (list_fmap_ext _ id); [|by intros ? [? ?]].
    rewrite list_fmap_id.
    rewrite <- (list_to_map_to_list orderMap) at 2.
    apply list_to_map_proper; [|apply Hrange].
    rewrite (Hrange _ _). apply NoDup_fst_map_to_list.
  - rewrite length_fmap, (Hrange _ _). by rewrite length_map_to_list.
Qed.

(** The order map of the sample step read back from its positions. *)
Lemma createParameterPositions_order_map_witness :
  list_to_map ((λ position, (NewPosition position, OldPosition position))
                 <$> createParameterPositions SampleRun.stepUnknown
                       {[ 0 := 1; 1 := 0 ]})
  = ({[ 0 := 1; 1 := 0 ]} : gmap Z Z).
Proof.
  exact (proj1 (createParameterPositions_order_map SampleRun.stepUnknown
                  {[ 0 := 1; 1 := 0 ]} (Sample_rangeVisitsAll _ _ _ _))).
Defined.

Section Substitution.

Lemma substituteArgs_parameters (args : list string) (orderMap : gmap Z Z)
    (fs fs' : list Fragment) (paramIndex : Z) :
  substituteArgs args orderMap paramIndex fs = Some fs' →
  length (parameters fs') = length (parameters fs).
Proof.
  revert fs' paramIndex.
  induction fs as [|[text|p] fs IH]; intros fs' paramIndex Hrun;
    simpl in Hrun.
  - by simplify_eq.
  - destruct (substituteArgs _ _ _ fs) as [rest'|] eqn:Hrest; [|done].
    simpl in Hrun. simplify_eq. simpl. by eapply IH.
  - destruct (if decide _ then _ else _) as [p'|]; [|done]. simpl in Hrun.
    destruct (substituteArgs _ _ _ fs) as [rest'|] eqn:Hrest; [|done].
    simpl in Hrun. simplify_eq. simpl. f_equal. by eapply IH.
Qed.

(** The loop panics exactly at a parameter whose mapped position is not an
    index of [args]. *)
Lemma substituteArgs_panics (args : list string) (orderMap : gmap Z Z)
    (fs : list Fragment) (paramIndex : Z) :
  substituteArgs args orderMap paramIndex fs = None
  ↔ ∃ i, (i < length (parameters fs))%nat
         ∧ map_get orderMap (paramIndex + Z.of_nat i) ≠ -1
         ∧ index args (map_get orderMap (paramIndex + Z.of_nat i)) = None.
Proof.
  split.
  - revert paramIndex.
    induction fs as [|[text|p] fs IH]; intros paramIndex Hrun; simpl in Hrun.
    + done.
    + destruct (substituteArgs _ _ _ fs) as [rest'|] eqn:Hrest; [done|].
      destruct (IH _ Hrest) as (i & Hi & Hmapped & Hindex). by exists i.
    + destruct (decide (map_get orderMap paramIndex ≠ -1)) as [Hmapped|Hnot].
      * destruct (index args (map_get orderMap paramIndex)) as [arg|] eqn:Harg.
        -- simpl in Hrun.
           destruct (substituteArgs _ _ _ fs) as [rest'|] eqn:Hrest; [done|].
           destruct (IH _ Hrest) as (i & Hi & Hmapped' & Hindex).
           exists (S i). simpl.
           replace (paramIndex + Z.of_nat (S i))
             with (paramIndex + 1 + Z.of_nat i) by lia.
           split; [lia|done].
        -- exists 0%nat. simpl. rewrite Z.add_0_r. split; [lia|done].
      * simpl in Hrun.
        destruct (substituteArgs _ _ _ fs) as [rest'|] eqn:Hrest; [done|].
        destruct (IH _ Hrest) as (i & Hi & Hmapped' & Hindex).
        exists (S i). simpl.
        replace (paramIndex + Z.of_nat (S i))
          with (paramIndex + 1 + Z.of_nat i) by lia.
        split; [lia|done].
  - intros (i & Hi & Hmapped & Hindex).
    destruct (substituteArgs args orderMap paramIndex fs) as [fs'|] eqn:Hrun;
      [|done].
    destruct (substituteArgs_spec args orderMap fs fs' paramIndex Hrun)
      as [_ Hparams].
    pose proof (substituteArgs_parameters _ _ _ _ _ Hrun) as Hlength.
    destruct (lookup_lt_is_Some_2 (parameters fs) i Hi) as [p Hp].
    destruct (lookup_lt_is_Some_2 (parameters fs') i) as [p' Hp']; [lia|].
    specialize (Hparams i p p' Hp Hp'). unfold substituted in Hparams.
    rewrite decide_False in Hparams by done.
    destruct Hparams as [Hvalue _]. congruence.
Qed.

End Substitution.

(** X5. A parameter fragment whose position is not a key of the order map
    (the new step has more parameter fragments than arguments) reads the
    zero value of the Go map: it is given the old argument at index 0, and
    [generateNewStepName] panics when there is no such argument. *)
Theorem generateNewStepName_missing_key (w : World)
    (agent : rephraseRefactorer) (args : list string) (orderMap : gmap Z Z)
    (i : nat) (p : ProtoParameter) :
  parameters (fragments (populateFragments w (newStep agent))) !! i = Some p →
  orderMap !! Z.of_nat i = None →
  match generateNewStepName w agent args orderMap with
  | Some (_, agent') =>
      ∃ arg p', args !! 0%nat = Some arg
                ∧ parameters (fragments (newStep agent')) !! i = Some p'
                ∧ Value p' = arg
  | None => True
  end
  ∧ (args = [] → generateNewStepName w agent args orderMap = None).
Proof.
  intros Hp Hkey.
  assert (map_get orderMap (Z.of_nat i) = 0) as Hzero.
  { unfold map_get. by rewrite Hkey. }
  unfold generateNewStepName.
  set (before := fragments (populateFragments w (newStep agent))) in *.
  destruct (substituteArgs args orderMap 0 before) as [fs'|] eqn:Hrun; simpl.
  - destruct (substituteArgs_spec _ _ _ _ _ Hrun) as [_ Hparams].
    pose proof (substituteArgs_parameters _ _ _ _ _ Hrun) as Hlength.
    destruct (lookup_lt_is_Some_2 (parameters fs') i) as [p' Hp'].
    { rewrite Hlength. by eapply lookup_lt_Some. }
    specialize (Hparams i p p' Hp Hp'). unfold substituted in Hparams.
    rewrite Z.add_0_l, Hzero in Hparams.
    rewrite decide_False in Hparams by done.
    destruct Hparams as [Hvalue _]. split.
    + exists (Value p'), p'. split; [|done].
      unfold index in Hvalue. by case_decide.
    + intros ->. by vm_compute in Hvalue.
  - split; [done|]. done.
Qed.

(** A new step with a parameter fragment and no argument: the fragment
    takes the old argument at index 0. *)
Lemma generateNewStepName_missing_key_witness :
  ∃ arg p',
    ["a"; "b"] !! 0%nat = Some arg
    ∧ [mkParameter Parameter_Dynamic "a" "amount"] !! 0%nat = Some p'
    ∧ Value p' = arg.
Proof.
  exact (proj1 (generateNewStepName_missing_key SampleRun.stepUnknown
                  (mkAgent Sample.oldTransfer
                     (mkStep "pay <amount>" "pay {}" []
                        [Fragment_Text "pay "; Sample.dynamic "amount"] false)
                     false)
                  ["a"; "b"] ∅ 0 _ eq_refl (lookup_empty _))).
Defined.

(** X6. [createRefactorRequest] panics exactly when the step value
    extracted from the runner's step name has no argument at an old
    position that the order map gives to a parameter fragment of the new
    step; a failed extraction is returned as an error, never as a panic. *)
Theorem createRefactorRequest_panics_iff (w : World)
    (agent : rephraseRefactorer) (runner : testRunner) (stepName : string) :
  createRefactorRequest w agent runner stepName = None
  ↔ ∃ oldStepValue orderMap i,
      extractStepValueAndParams w stepName false = inr oldStepValue
      ∧ createOrderOfArgs agent = Some orderMap
      ∧ (i < length (parameters
                       (fragments (populateFragments w (newStep agent)))))%nat
      ∧ map_get orderMap (Z.of_nat i) ≠ -1
      ∧ index (sv_args oldStepValue) (map_get orderMap (Z.of_nat i)) = None.
Proof.
  unfold createRefactorRequest, getStepValueFor.
  destruct (extractStepValueAndParams w stepName false)
    as [err|oldStepValue] eqn:Hold.
  { split; [done|]. by intros (? & ? & ? & ? & _). }
  destruct (createOrderOfArgs_dom agent) as (orderMap & Horder & _).
  rewrite Horder. simpl. unfold generateNewStepName.
  set (before := fragments (populateFragments w (newStep agent))).
  destruct (substituteArgs (sv_args oldStepValue) orderMap 0 before)
    as [fs'|] eqn:Hrun; simpl.
  - split.
    + by destruct (extractStepValueAndParams w (convertToStepText w fs') false).
    + intros (sv & m & i & ? & ? & Hi & Hmapped & Hindex). simplify_eq.
      assert (substituteArgs (sv_args sv) m 0 before = None) as Hnone.
      { apply substituteArgs_panics. exists i. by rewrite Z.add_0_l. }
      congruence.
  - split; [|done]. intros _.
    apply substituteArgs_panics in Hrun as (i & Hi & Hmapped & Hindex).
    rewrite Z.add_0_l in Hmapped, Hindex. by exists oldStepValue, orderMap, i.
Qed.

(** ** The dialogue with the runner *)

(** X7. [getStepNameFromRunner] sends exactly one message, the step name
    request carrying the value of the old step, and touches nothing else;
    a failure of the transport is handed back as it is. *)
Theorem getStepNameFromRunner_sends_once (w : World)
    (agent : rephraseRefactorer) (runner : testRunner) (s : state) :
  (getStepNameFromRunner w agent runner s).1
  = mkState
      (trace s ++ [EvSend (Message_StepNameRequest (value (oldStep agent)))])
      (specHeap s) (conceptsMap s) (mainResult s)
  ∧ ∀ err, stepNameAnswer w agent runner = inl err →
           (getStepNameFromRunner w agent runner s).2 = Some (inl err).
Proof.
  split.
  - unfold getStepNameFromRunner. rewrite run_bind. simpl.
    destruct (getResponseForMessageWithTimeout _ _ _) as [err|m]; [done|].
    destruct (negb _); [done|]. destruct (GetHasAlias _); [done|].
    rewrite run_bind. by destruct (index _ 0).
  - intros err Hanswer. by rewrite getStepNameFromRunner_run, Hanswer.
Qed.

(** X8. [requestRunnerForRefactoring] reports no error exactly when the
    request could be built and the runner answered it with a successful
    refactor response, whose files it then returns; a transport failure,
    a refusal and an answer of another kind all come back as an error
    value.  It panics only if building the request panics, and it sends
    the request once, or nothing when the request could not be built. *)
Theorem requestRunnerForRefactoring_outcomes (w : World)
    (agent : rephraseRefactorer) (runner : testRunner) (stepName : string)
    (s : state) :
  let run := requestRunnerForRefactoring w agent runner stepName s in
  (∀ files,
     run.2 = Some (files, None)
     ↔ ∃ request answer response,
         createRefactorRequest w agent runner stepName = Some (inr request)
         ∧ getResponseForMessageWithTimeout w request (connection runner)
           = inr answer
         ∧ GetRefactorResponse answer = Some response
         ∧ Success response = true ∧ files = FilesChanged response)
  ∧ (run.2 = None ↔ createRefactorRequest w agent runner stepName = None)
  ∧ trace run.1
    = trace s ++ match createRefactorRequest w agent runner stepName with
                 | Some (inr request) => [EvSend request]
                 | _ => []
                 end.
Proof.
  intros run. subst run. unfold requestRunnerForRefactoring.
  rewrite run_bind.
  destruct (createRefactorRequest w agent runner stepName)
    as [[err|request]|] eqn:Hrequest; simpl.
  - rewrite app_nil_r. split; [|done]. intros files. split; [done|].
    by intros (? & ? & ? & ? & _).
  - rewrite run_bind. unfold sendRefactorRequest. rewrite run_bind. simpl.
    destruct (getResponseForMessageWithTimeout w request (connection runner))
      as [err|answer] eqn:Hanswer; simpl.
    + split; [|done]. intros files. split; [done|].
      intros (? & ? & ? & ? & ? & _). simplify_eq. congruence.
    + split; [|done]. intros files. split.
      * destruct (GetRefactorResponse answer) as [response|] eqn:Hresponse;
          simpl; [|done].
        destruct (Success response) eqn:Hsuccess; simpl; [|done].
        intros ?. simplify_eq. by exists request, answer, response.
      * intros (? & answer' & response & ? & Hanswer' & Hresponse & Hsuccess
                & ->).
        simplify_eq. rewrite Hanswer in Hanswer'. simplify_eq.
        rewrite Hresponse. simpl. by rewrite Hsuccess.
  - rewrite app_nil_r. split; [|done]. intros files. split; [done|].
    by intros (? & ? & ? & ? & _).
Qed.

(** ** The stages of [performRefactoringOn] *)

Section Stages.

Context (w : World).

Lemma startRunner_notKill : preserves (calls notKill) (startRunner w).
Proof. unfold startRunner. frame. Qed.

Lemma runnerStages_notKill agent runner :
  preserves (calls notKill)
    (r ← getStepNameFromRunner w agent runner;
     match r with
     | inl err => updateResult (appendError err);; readResult
     | inr stepName =>
         '(runnerFilesChanged, err) ←
           requestRunnerForRefactoring w agent runner stepName;
         match err with
         | Some err =>
             updateResult
               (appendError
                  ("Only spec files and concepts refactored: " +:+ err));;
             readResult
         | None =>
             updateResult (setSuccess true);;
             updateResult (setRunnerFilesChanged runnerFilesChanged);;
             readResult
         end
     end).
Proof.
  unfold getStepNameFromRunner, requestRunnerForRefactoring,
    sendRefactorRequest.
  frame.
Qed.

End Stages.

(** X9. Once the documents are written, [performRefactoringOn] releases
    the runner exactly once, as its last call, on every path that follows
    a connection, also when a later stage fails or panics; and it never
    does when the connection failed. *)
Theorem performRefactoringOn_releases_runner (w : World)
    (agent : rephraseRefactorer) (specs : list loc) (s s1 s2 : state)
    (sr : gmap loc bool) (cr : gmap string bool) (agent' : rephraseRefactorer)
    (sf cf : list string) :
  rephraseInSpecsAndConcepts w agent specs s = (s1, Some (sr, cr, agent')) →
  writeToConceptAndSpecFiles w specs sr cr s1 = (s2, Some (sf, cf)) →
  ∃ evs,
    trace (performRefactoringOn w agent specs s).1 = trace s2 ++ evs
    ∧ match startRunnerAndMakeConnection w with
      | inl _ => Forall notKill evs
      | inr _ => ∃ evs', evs = evs' ++ [EvKill] ∧ Forall notKill evs'
      end.
Proof.
  intros Hrephrase Hwrite. unfold performRefactoringOn.
  rewrite run_bind, Hrephrase. rewrite run_bind, Hwrite.
  rewrite run_bind. simpl. rewrite run_bind.
  set (s3 := mkState _ _ _ _).
  pose proof (startRunner_notKill w s3) as Hcalls.
  assert ((startRunner w s3).2
          = Some match startRunnerAndMakeConnection w with
                 | inl err => inl ("Failed to connect to test runner: " +:+ err)
                 | inr runner => inr runner
                 end) as Hstarted.
  { unfold startRunner. rewrite !run_bind. simpl.
    by destruct (startRunnerAndMakeConnection w). }
  destruct (startRunner w s3) as [s4 started]. simpl in Hcalls, Hstarted.
  subst started.
  assert (calls notKill s2 s4) as Hcalls'.
  { destruct Hcalls as (evs & Htrace & HP). by exists evs. }
  clear Hcalls. clearbody s3.
  destruct (startRunnerAndMakeConnection w) as [err|runner].
  - match goal with
    | |- context [(?m ≫= ?f) s4] =>
        assert (preserves (calls notKill) (m ≫= f)) as Hrest by frame;
        specialize (Hrest s4); destruct ((m ≫= f) s4) as [s5 r]
    end.
    simpl in *. destruct (transitivity Hcalls' Hrest) as (evs & Htrace & HP).
    by exists evs.
  - unfold defer.
    pose proof (runnerStages_notKill w agent' runner s4) as Hrest.
    match goal with
    | |- context [let '(_, _) := ?m s4 in _] => destruct (m s4) as [s5 r]
    end.
    simpl in *. destruct (transitivity Hcalls' Hrest) as (evs & Htrace & HP).
    exists (evs ++ [EvKill]). rewrite Htrace, <- app_assoc. split; [done|].
    by exists evs.
Qed.

(** On the sample project with a runner that does not know the step, the
    last call is the release of the runner. *)
Lemma performRefactoringOn_releases_runner_witness :
  last (trace (performRefactoringOn SampleRun.stepUnknown Sample.agent
                 SampleRun.specs SampleRun.loaded).1) = Some EvKill.
Proof.
  edestruct (performRefactoringOn_releases_runner SampleRun.stepUnknown
               Sample.agent SampleRun.specs SampleRun.loaded)
    as (evs & Htrace & evs' & -> & _);
    [vm_compute; reflexivity|vm_compute; reflexivity|].
  rewrite Htrace, app_assoc. apply last_snoc.
Defined.

(** X10. The calls of [performRefactoringOn] come in the order of its
    stages, also when it fails or panics: first the rewrites of the
    documents in memory, then the file writes, then the calls to the
    runner.  No file is written before the rewrite is over, and none once
    the runner has been called. *)
Theorem performRefactoringOn_stage_order (w : World)
    (agent : rephraseRefactorer) (specs : list loc) (s : state) :
  ∃ renames saves runnerCalls,
    trace (performRefactoringOn w agent specs s).1
    = trace s ++ renames ++ saves ++ runnerCalls
    ∧ Forall isRename renames ∧ Forall isSave saves
    ∧ Forall isRunnerCall runnerCalls.
Proof.
  destruct (performRefactoringOn w agent specs s) as [s' res] eqn:Hrun.
  pose proof (rephraseInSpecsAndConcepts_calls w agent specs s)
    as (renames & Hrenames & HPr).
  destruct (rephraseInSpecsAndConcepts w agent specs s)
    as [s1 [[[sr cr] agent']|]] eqn:Hrephrase; simpl in Hrenames.
  - pose proof (writeToConceptAndSpecFiles_calls w specs sr cr s1)
      as (saves & Hsaves & HPs).
    destruct (writeToConceptAndSpecFiles w specs sr cr s1)
      as [s2 [[sf cf]|]] eqn:Hwrite; simpl in Hsaves.
    + destruct (performRefactoringOn_run w _ _ _ _ _ _ _ _ _ _ _ _
                  Hrephrase Hwrite Hrun)
        as (_ & _ & _ & runnerCalls & Hcalls & HPc).
      exists renames, saves, runnerCalls. simpl.
      rewrite Hcalls, Hsaves, Hrenames, <- !app_assoc. done.
    + unfold performRefactoringOn in Hrun.
      rewrite run_bind, Hrephrase in Hrun. rewrite run_bind, Hwrite in Hrun.
      simplify_eq. exists renames, saves, []. simpl.
      rewrite Hsaves, Hrenames, app_nil_r, <- app_assoc.
      repeat split; try done; constructor.
  - unfold performRefactoringOn in Hrun.
    rewrite run_bind, Hrephrase in Hrun. simplify_eq.
    exists renames, [], []. simpl. rewrite Hrenames, app_nil_r.
    repeat split; try done; constructor.
Qed.

(** X11. Once the documents are written, [performRefactoringOn] hands
    back a successful result exactly when the connection, the step name and
    the refactor request all succeed; when they do, the result is the
    success that lists the files the runner changed beside those of the
    documents, and holds no error. *)
Theorem performRefactoringOn_success_iff (w : World)
    (agent : rephraseRefactorer) (specs : list loc) (s s1 s2 : state)
    (sr : gmap loc bool) (cr : gmap string bool) (agent' : rephraseRefactorer)
    (sf cf : list string) :
  rephraseInSpecsAndConcepts w agent specs s = (s1, Some (sr, cr, agent')) →
  writeToConceptAndSpecFiles w specs sr cr s1 = (s2, Some (sf, cf)) →
  let run := performRefactoringOn w agent specs s in
  ((∃ r, run.2 = Some r ∧ success r = true)
   ↔ ∃ files, stagesSucceeded w agent' files)
  ∧ (∀ files,
       stagesSucceeded w agent' files →
       run.2 = Some (mkResult true sf cf files [] [])).
Proof.
  intros Hrephrase Hwrite run. subst run.
  destruct (performRefactoringOn w agent specs s) as [s' res] eqn:Hrun.
  destruct (performRefactoringOn_run w _ _ _ _ _ _ _ _ _ _ _ _
              Hrephrase Hwrite Hrun) as (writes & Hrunner & _ & _).
  simpl.
  assert (∀ files, stagesSucceeded w agent' files →
                   res = Some (mkResult true sf cf files [] [])) as Hdone.
  { intros files (runner & stepName & Hstart & Hname & Hrequest).
    destruct Hrunner; by same_answers. }
  split; [split|done].
  - intros (r & -> & Hsuccess).
    inversion Hrunner; subst; simpl in Hsuccess; try done.
    by eexists _, _, _.
  - intros (files & Hfiles). rewrite (Hdone _ Hfiles). by eexists.
Qed.

(** On the sample project with a runner that refactors the step, all
    stages succeed: the result is the success that lists the file of the
    runner. *)
Lemma performRefactoringOn_success_iff_witness :
  (performRefactoringOn SampleRun.stepRefactored Sample.agent SampleRun.specs
     SampleRun.loaded).2
  = Some (mkResult true ["bank.spec"] ["bank.cpt"] ["StepImpl.java"] [] []).
Proof.
  refine (proj2 (performRefactoringOn_success_iff
                   SampleRun.stepRefactored Sample.agent
                   SampleRun.specs SampleRun.loaded
                   _ _ _ _ _ _ _ _ _)
            ["StepImpl.java"] _).
  - vm_compute. reflexivity.
  - vm_compute. reflexivity.
  - exists Sample.runner, "transfer {} to {}".
    split; [reflexivity|]. split; vm_compute; reflexivity.
Defined.

(** ** The pre-check and the whole attempt *)

(** X12. [addErrorsAndWarningsToRefactoringResult] never turns a failure
    into a success: the flag stays true only if it was true and every
    parse result is ok.  It appends the errors of the failed parse results
    and the warnings of all of them, in order, leaves the file lists
    alone, and two calls in a row amount to one call on both lists. *)
Theorem addErrorsAndWarnings_accumulates (r : refactoringResult)
    (prs prs' : list parseResult) :
  let r' := addErrorsAndWarningsToRefactoringResult r prs in
  success r' = success r && forallb ok prs
  ∧ errors r' = errors r ++ parseErrors prs
  ∧ result_warnings r' = result_warnings r ++ parseWarnings prs
  ∧ specsChanged r' = specsChanged r
  ∧ conceptsChanged r' = conceptsChanged r
  ∧ runnerFilesChanged r' = runnerFilesChanged r
  ∧ addErrorsAndWarningsToRefactoringResult r' prs'
    = addErrorsAndWarningsToRefactoringResult r (prs ++ prs').
Proof.
  intros r'. subst r'. rewrite addErrorsAndWarnings_spec. simpl.
  repeat split. rewrite <- addErrorsAndWarnings_spec.
  unfold addErrorsAndWarningsToRefactoringResult. by rewrite foldl_app.
Qed.

Section Agent.

Context (w : World).

Lemma createSteps_all (tokens : list string) (steps acc : list step) :
  Forall2 (λ token st, createStepUsingLookup w token = inr st) tokens steps →
  createSteps w tokens acc = inr (acc ++ steps).
Proof.
  intros Hall. revert acc.
  induction Hall as [|token st tokens steps Hst _ IH]; intros acc; simpl.
  - by rewrite app_nil_r.
  - rewrite Hst, IH, <- app_assoc. done.
Qed.

Lemma createSteps_first_error (pre post : list string) (token : string)
    (steps acc : list step) (err : Go.error) :
  Forall2 (λ token st, createStepUsingLookup w token = inr st) pre steps →
  createStepUsingLookup w token = inl err →
  createSteps w (pre ++ token :: post) acc = inl err.
Proof.
  intros Hall Herr. revert acc.
  induction Hall as [|t st pre steps Hst _ IH]; intros acc; simpl.
  - by rewrite Herr.
  - by rewrite Hst, IH.
Qed.

End Agent.

(** X13. [getRefactorAgent] makes one call to the tokenizer, on the text
    "* old\n*new", and touches nothing else.  An error of the tokenizer,
    or the first error met while building the steps, is handed back.  When
    every token gives a step, the agent takes the first step as the old
    one and the second as the new one, ignoring any further step; with
    fewer than two steps the function panics on the index. *)
Theorem getRefactorAgent_outcomes (w : World)
    (oldStepText newStepText : string) (s : state) :
  let text := "* " +:+ oldStepText +:+ newline +:+ "*" +:+ newStepText in
  let run := getRefactorAgent w oldStepText newStepText s in
  run.1 = mkState (trace s ++ [EvGenerateTokens text]) (specHeap s)
            (conceptsMap s) (mainResult s)
  ∧ (∀ err, generateTokens w text = inl err → run.2 = Some (inl err))
  ∧ (∀ tokens steps,
       generateTokens w text = inr tokens →
       Forall2 (λ token st, createStepUsingLookup w token = inr st)
         tokens steps →
       run.2 = match steps with
               | step0 :: step1 :: _ => Some (inr (mkAgent step0 step1 false))
               | _ => None
               end)
  ∧ (∀ pre token post steps err,
       generateTokens w text = inr (pre ++ token :: post) →
       Forall2 (λ token st, createStepUsingLookup w token = inr st)
         pre steps →
       createStepUsingLookup w token = inl err →
       run.2 = Some (inl err)).
Proof.
  intros text run. subst run. unfold getRefactorAgent. fold text.
  rewrite run_bind. simpl.
  destruct (generateTokens w text) as [err|tokens]; simpl.
  { split; [done|]. split; [by intros ? ?; simplify_eq|]. split; done. }
  split.
  - destruct (createSteps w tokens []) as [err|steps]; [done|].
    rewrite run_bind. destruct (index steps 0) as [step0|]; [|done]. simpl.
    rewrite run_bind. by destruct (index steps 1).
  - split; [done|]. split.
    + intros tokens' steps ? Hall. simplify_eq.
      rewrite (createSteps_all w tokens' steps [] Hall). simpl.
      rewrite run_bind.
      destruct steps as [|step0 [|step1 rest]]; [done|done|].
      change (index (step0 :: step1 :: rest) 0)
        with (index (step0 :: step1 :: rest) (Z.of_nat 0)).
      rewrite index_lookup. simpl. rewrite run_bind.
      change (index (step0 :: step1 :: rest) 1)
        with (index (step0 :: step1 :: rest) (Z.of_nat 1)).
      by rewrite index_lookup.
    + intros pre token post steps err ? Hall Herr. simplify_eq.
      by rewrite (createSteps_first_error w pre post token steps [] err).
Qed.

(** The sample parser gives two steps: the agent holds them in order. *)
Lemma getRefactorAgent_outcomes_witness :
  (getRefactorAgent SampleRun.stepUnknown "transfer <from> to <to>"
     "transfer <to> from <from>" Sample.start).2
  = Some (inr (mkAgent Sample.oldTransfer Sample.newTransfer false)).
Proof.
  refine (proj1 (proj2 (proj2 (getRefactorAgent_outcomes SampleRun.stepUnknown
                                 "transfer <from> to <to>"
                                 "transfer <to> from <from>" Sample.start)))
            ["old"; "new"] [Sample.oldTransfer; Sample.newTransfer]
            eq_refl _).
  repeat constructor.
Defined.

Section Attempt.

Context (w : World).

Lemma parseErrors_nonempty (prs : list parseResult) :
  forallb ok prs = false → parseErrors prs ≠ [].
Proof.
  intros (pr & Hin & Hpr)%forallb_ok_false Hnil. unfold parseErrors in Hnil.
  apply fmap_nil_inv in Hnil.
  assert (pr ∈ filter (λ pr, ok pr = false) prs) as Hfiltered
    by (by apply list_elem_of_filter).
  rewrite Hnil in Hfiltered. by apply elem_of_nil in Hfiltered.
Qed.

(** what [performRefactoringOn] can hand back *)
Lemma performRefactoringOn_result agent specs s r :
  (performRefactoringOn w agent specs s).2 = Some r →
  ∃ sf cf,
    (∃ err, r = mkResult false sf cf [] [err] [])
    ∨ (∃ files, r = mkResult true sf cf files [] []).
Proof.
  intros Hres.
  destruct (performRefactoringOn w agent specs s) as [s' res] eqn:Hrun.
  simpl in Hres. subst res.
  destruct (rephraseInSpecsAndConcepts w agent specs s)
    as [s1 [[[sr cr] agent']|]] eqn:Hrephrase.
  - destruct (writeToConceptAndSpecFiles w specs sr cr s1)
      as [s2 [[sf cf]|]] eqn:Hwrite.
    + destruct (performRefactoringOn_run w _ _ _ _ _ _ _ _ _ _ _ _
                  Hrephrase Hwrite Hrun) as (writes & Hrunner & _ & _).
      exists sf, cf. inversion Hrunner; subst; eauto.
    + unfold performRefactoringOn in Hrun.
      rewrite run_bind, Hrephrase in Hrun. rewrite run_bind, Hwrite in Hrun.
      by simplify_eq.
  - unfold performRefactoringOn in Hrun.
    rewrite run_bind, Hrephrase in Hrun. by simplify_eq.
Qed.

(** the ways [performRephraseRefactoring] comes to a result *)
Lemma performRephraseRefactoring_cases oldStepText newStepText s r :
  (performRephraseRefactoring w oldStepText newStepText s).2 = Some r →
  (newStepText = oldStepText
   ∧ r = rephraseFailure ["Same old step name and new step name."])
  ∨ (newStepText ≠ oldStepText
     ∧ ∃ err,
         (getRefactorAgent w oldStepText newStepText s).2 = Some (inl err)
         ∧ r = rephraseFailure [err])
  ∨ (newStepText ≠ oldStepText
     ∧ ∃ agent,
         (getRefactorAgent w oldStepText newStepText s).2 = Some (inr agent)
         ∧ ((∃ err, GetProjectRoot w = inl err ∧ r = rephraseFailure [err])
            ∨ ∃ root,
                GetProjectRoot w = inr root
                ∧ ((forallb ok (collected w root) = false
                    ∧ r = mkResult false [] [] []
                            (parseErrors (collected w root))
                            (parseWarnings (collected w root)))
                   ∨ (forallb ok (collected w root) = true
                      ∧ ∃ specs s0 r',
                          (performRefactoringOn w agent specs s0).2 = Some r'
                          ∧ r = appendToWarnings
                                  (parseWarnings (collected w root)) r')))).
Proof.
  intros Hres. unfold performRephraseRefactoring in Hres.
  case_bool_decide as Hsame.
  { left. rewrite ?run_ret in Hres. simpl in Hres. by simplify_eq. }
  right. rewrite run_bind in Hres.
  destruct (getRefactorAgent w oldStepText newStepText s)
    as [s1 [[err|agent]|]]; [| |done].
  { left. split; [done|]. exists err. rewrite ?run_ret in Hres. simpl in Hres.
    by simplify_eq. }
  right. split; [done|]. exists agent. split; [done|].
  rewrite run_bind in Hres. simpl in Hres.
  destruct (GetProjectRoot w) as [err|root].
  { left. exists err. rewrite ?run_ret in Hres. simpl in Hres.
    by simplify_eq. }
  right. exists root. split; [done|].
  rewrite run_bind in Hres. simpl in Hres. unfold collected.
  destruct (findSpecs w root) as [found specParseResults]. simpl.
  rewrite run_bind in Hres.
  destruct (allocSpecs found [] _) as [s3 [specs|]]; [|done].
  rewrite !addErrorsAndWarnings_spec in Hres. simpl in Hres.
  destruct (forallb ok specParseResults) eqn:Hspecsok; simpl in Hres.
  - rewrite run_bind in Hres. simpl in Hres.
    destruct (createConceptsDictionary w) as [conceptDictionary parseResult].
    simpl. rewrite run_bind in Hres. simpl in Hres.
    rewrite appendWarnings_spec in Hres.
    rewrite forallb_app, Hspecsok, parseErrors_app, parseWarnings_app,
      parseWarnings_one.
    simpl. rewrite andb_true_r.
    destruct (ok parseResult) eqn:Hok; simpl in Hres.
    + right. split; [done|]. rewrite run_bind in Hres.
      match type of Hres with
      | context [performRefactoringOn w agent specs ?s0] =>
          destruct (performRefactoringOn w agent specs s0)
            as [s5 [r'|]] eqn:Hrun; [|done];
          pose proof (performRefactoringOn_history w _ _ _ _ _ Hrun)
            as (h & Hmain & Hshape);
          exists specs, s0, r'; rewrite Hrun
      end.
      split; [done|].
      assert (∃ h0, mainResult s5 = h0 ++ [r']) as [h0 Hlast].
      { inversion Hshape; subst; rewrite Hmain.
        - eexists (_ ++ [_]). by rewrite <- app_assoc.
        - eexists (_ ++ [_; _]). by rewrite <- app_assoc. }
      rewrite (run_update_read _ _ _ _ Hlast) in Hres. simpl in Hres.
      by simplify_eq.
    + left. split; [done|]. rewrite ?run_ret in Hres. simpl in Hres.
      simplify_eq. by rewrite parseErrors_failed.
  - left. split; [done|]. rewrite ?run_ret in Hres. simpl in Hres.
    by simplify_eq.
Qed.

End Attempt.

(** X14. Whatever [performRephraseRefactoring] hands back, the success
    flag is true exactly when the result holds no error, and a result that
    is not a success lists no runner file. *)
Theorem performRephraseRefactoring_success_iff_no_error (w : World)
    (oldStepText newStepText : string) (s : state) (r : refactoringResult) :
  (performRephraseRefactoring w oldStepText newStepText s).2 = Some r →
  (success r = true ↔ errors r = [])
  ∧ (success r = false → runnerFilesChanged r = []).
Proof.
  intros Hres.
  destruct (performRephraseRefactoring_cases w _ _ _ _ Hres)
    as [[_ ->]|[(_ & err & _ & ->)
       |(_ & agent & _ & [(err & _ & ->)
          |(root & _ & [[Hfail ->]|(_ & specs & s0 & r' & Hr' & ->)])])]];
    try done.
  - simpl. split; [|done]. split; [done|]. intros Hnil.
    by destruct (parseErrors_nonempty _ Hfail).
  - destruct (performRefactoringOn_result w _ _ _ _ Hr')
      as (sf & cf & [[err ->]|[files ->]]); done.
Qed.

(** The sample project with a runner that does not know the step. *)
Lemma performRephraseRefactoring_success_iff_no_error_witness :
  ∃ r,
    (performRephraseRefactoring SampleRun.stepUnknown
       "transfer <from> to <to>" "transfer <to> from <from>" Sample.start).2
    = Some r
    ∧ success r = false ∧ runnerFilesChanged r = [].
Proof.
  eexists. split; [vm_compute; reflexivity|]. split; [reflexivity|].
  refine (proj2 (performRephraseRefactoring_success_iff_no_error
                   SampleRun.stepUnknown "transfer <from> to <to>"
                   "transfer <to> from <from>" Sample.start _ _) _).
  - vm_compute. reflexivity.
  - reflexivity.
Defined.

(** X15. Once the phrases are parsed and the project root is known, the
    warnings of the result are exactly those of the parse results
    collected by the pre-check, in order, whether the attempt then stops
    at the pre-check, fails at the runner or succeeds; and a successful
    result means that every parse result was ok. *)
Theorem performRephraseRefactoring_warnings (w : World)
    (oldStepText newStepText : string) (s : state)
    (agent : rephraseRefactorer) (root : string) (r : refactoringResult) :
  newStepText ≠ oldStepText →
  (getRefactorAgent w oldStepText newStepText s).2 = Some (inr agent) →
  GetProjectRoot w = inr root →
  (performRephraseRefactoring w oldStepText newStepText s).2 = Some r →
  result_warnings r = parseWarnings (collected w root)
  ∧ (success r = true → forallb ok (collected w root) = true).
Proof.
  intros Hne Hagent Hroot Hres.
  destruct (performRephraseRefactoring_cases w _ _ _ _ Hres)
    as [[? _]|[(_ & err & ? & _)
       |(_ & agent' & _ & [(err & ? & _)
          |(root' & ? & [[Hfail ->]|(Hok & specs & s0 & r' & Hr' & ->)])])]];
    try congruence.
  - assert (root' = root) as -> by congruence. done.
  - assert (root' = root) as -> by congruence. split; [|done].
    destruct (performRefactoringOn_result w _ _ _ _ Hr')
      as (sf & cf & [[err ->]|[files ->]]); done.
Qed.

(** The sample project whose specification parses with a warning. *)
Lemma performRephraseRefactoring_warnings_witness :
  ∃ r,
    (performRephraseRefactoring SampleMore.warned
       "transfer <from> to <to>" "transfer <to> from <from>" Sample.start).2
    = Some r
    ∧ result_warnings r = ["bank.spec:1 empty heading"].
Proof.
  eexists. split; [vm_compute; reflexivity|].
  refine (proj1 (performRephraseRefactoring_warnings SampleMore.warned
                   "transfer <from> to <to>" "transfer <to> from <from>"
                   Sample.start Sample.agent "/project" _ _ _ _ _)).
  - discriminate.
  - reflexivity.
  - reflexivity.
  - vm_compute. reflexivity.
Defined.

Section EarlyFailure.

Context (w : World).

Lemma getRefactorAgent_state oldStepText newStepText s :
  (getRefactorAgent w oldStepText newStepText s).1
  = mkState
      (trace s
       ++ [EvGenerateTokens
             ("* " +:+ oldStepText +:+ newline +:+ "*" +:+ newStepText)])
      (specHeap s) (conceptsMap s) (mainResult s).
Proof.
  unfold getRefactorAgent. rewrite run_bind. simpl.
  destruct (generateTokens w _) as [err|tokens]; [done|].
  destruct (createSteps w tokens []) as [err|steps]; [done|].
  rewrite run_bind. destruct (index steps 0) as [step0|]; [|done]. simpl.
  rewrite run_bind. by destruct (index steps 1).
Qed.

End EarlyFailure.

(** X16. When the phrases do not parse, or when the project root is not
    found, [performRephraseRefactoring] hands back a failure holding that
    one error; the only calls made are the tokenizer call and, in the
    second case, the search for the project root: no document is looked
    for.  A panic while building the agent ends the attempt. *)
Theorem performRephraseRefactoring_early_failure (w : World)
    (oldStepText newStepText : string) (s : state) :
  newStepText ≠ oldStepText →
  let parsed :=
    EvGenerateTokens
      ("* " +:+ oldStepText +:+ newline +:+ "*" +:+ newStepText) in
  let run := performRephraseRefactoring w oldStepText newStepText s in
  (∀ err,
     (getRefactorAgent w oldStepText newStepText s).2 = Some (inl err) →
     run = (mkState (trace s ++ [parsed]) (specHeap s) (conceptsMap s)
              (mainResult s),
            Some (mkResult false [] [] [] [err] [])))
  ∧ (∀ agent err,
       (getRefactorAgent w oldStepText newStepText s).2 = Some (inr agent) →
       GetProjectRoot w = inl err →
       run = (mkState (trace s ++ [parsed; EvGetProjectRoot]) (specHeap s)
                (conceptsMap s) (mainResult s),
              Some (mkResult false [] [] [] [err] [])))
  ∧ ((getRefactorAgent w oldStepText newStepText s).2 = None →
     run.2 = None).
Proof.
  intros Hne parsed run. subst run. unfold performRephraseRefactoring.
  rewrite bool_decide_eq_false_2 by done. rewrite run_bind.
  pose proof (getRefactorAgent_state w oldStepText newStepText s) as Hstate.
  destruct (getRefactorAgent w oldStepText newStepText s) as [s1 r].
  simpl in Hstate. subst s1. split; [|split].
  - intros err ?. by simplify_eq/=.
  - intros agent err ? Hroot. simplify_eq/=. rewrite run_bind. simpl.
    rewrite Hroot. rewrite run_ret. simpl. by rewrite <- app_assoc.
  - intros ?. by simplify_eq/=.
Qed.

(** A project whose root is not found. *)
Lemma performRephraseRefactoring_early_failure_witness :
  (performRephraseRefactoring SampleMore.rootless "transfer <from> to <to>"
     "transfer <to> from <from>" Sample.start).2
  = Some (mkResult false [] [] [] ["no manifest found"] []).
Proof.
  refine (f_equal snd
            (proj1 (proj2 (performRephraseRefactoring_early_failure
                             SampleMore.rootless "transfer <from> to <to>"
                             "transfer <to> from <from>" Sample.start _))
               Sample.agent "no manifest found" _ _)).
  - discriminate.
  - reflexivity.
  - reflexivity.
Defined.

(** ** A nil pointer among the specifications to save *)

Section NilPointers.

Context (w : World).

Lemma writeSpecs_panics (sr : gmap loc bool) (specs : list loc)
    (acc : list string) (s : state) :
  (forEach (writeSpec w sr) acc specs s).2 = None
  ↔ ∃ p, p ∈ specs ∧ flag_get sr p = true ∧ specHeap s !! p = None.
Proof.
  revert acc s. induction specs as [|q specs IH]; intros acc s.
  - simpl. split; [done|]. by intros (p & ?%elem_of_nil & _).
  - rewrite forEach_cons. unfold writeSpec at 1.
    destruct (flag_get sr q) eqn:Hflag.
    + rewrite run_bind. simpl.
      destruct (specHeap s !! q) as [spec|] eqn:Hq; simpl.
      * rewrite ?run_bind. simpl. rewrite IH. simpl. split.
        -- intros (p & Hp & ? & ?). exists p. split; [by right|done].
        -- intros (p & [->|Hp]%elem_of_cons & ? & ?); [congruence|].
           by exists p.
      * split; [|done]. intros _. exists q. split; [by left|done].
    + rewrite run_ret, IH. split.
      * intros (p & Hp & ? & ?). exists p. split; [by right|done].
      * intros (p & [->|Hp]%elem_of_cons & ? & ?); [congruence|].
        by exists p.
Qed.

End NilPointers.

(** X18. [writeToConceptAndSpecFiles] panics exactly when a specification
    pointer with a true flag is nil; in every case it leaves the documents
    in memory and the main result as they are. *)
Theorem writeToConceptAndSpecFiles_panics_iff (w : World) (specs : list loc)
    (sr : gmap loc bool) (cr : gmap string bool) (s : state) :
  let run := writeToConceptAndSpecFiles w specs sr cr s in
  (run.2 = None
   ↔ ∃ p, p ∈ specs ∧ flag_get sr p = true ∧ specHeap s !! p = None)
  ∧ specHeap run.1 = specHeap s
  ∧ conceptsMap run.1 = conceptsMap s
  ∧ mainResult run.1 = mainResult s.
Proof.
  intros run. subst run. split.
  - rewrite <- (writeSpecs_panics w sr specs [] s).
    unfold writeToConceptAndSpecFiles. rewrite run_bind.
    destruct (forEach (writeSpec w sr) [] specs s) as [s1 [sf|]]; [|done].
    rewrite run_bind. simpl. rewrite run_bind, writeConcepts_run. done.
  - destruct (writeToConceptAndSpecFiles_sameDocuments w specs sr cr s)
      as [Hspecs Hconcepts].
    pose proof (writeToConceptAndSpecFiles_sameMain w specs sr cr s) as Hmain.
    done.
Qed.

(** ** The flags that the rewrite hands back *)

Section FlagKeys.

Context (w : World) (old new : step) (orderMap : gmap Z Z).

Lemma renameSpecs_keys (specs : list loc) (acc sr : gmap loc bool)
    (s s' : state) :
  forEach (renameSpec w old new orderMap) acc specs s = (s', Some sr) →
  ∀ p, is_Some (sr !! p) ↔ is_Some (acc !! p) ∨ p ∈ specs.
Proof.
  revert acc s. induction specs as [|q specs IH]; intros acc s Hrun p.
  - simpl in Hrun. rewrite run_ret in Hrun. simplify_eq. split; [by left|].
    by intros [?|?%elem_of_nil].
  - rewrite forEach_cons in Hrun. unfold renameSpec at 1 in Hrun.
    rewrite run_bind in Hrun. simpl in Hrun.
    destruct (specHeap s !! q) as [spec|]; simpl in Hrun; [|done].
    rewrite run_bind in Hrun. simpl in Hrun.
    destruct (renameSteps w spec old new orderMap) as [spec' b].
    rewrite run_bind in Hrun. simpl in Hrun.
    rewrite (IH _ _ Hrun p), elem_of_cons.
    destruct (decide (q = p)) as [->|Hne].
    + rewrite lookup_insert_eq. split; [by right; left|].
      intros _. left. by eexists.
    + rewrite lookup_insert_ne by done. split.
      * intros [?|?]; [by left|by right; right].
      * intros [?|[?|?]]; [by left|congruence|by right].
Qed.

Lemma renameItems_keys (fileName : string) (its visited : list item)
    (cfr : gmap string bool) (isC : bool) (s : state) :
  is_Some (cfr !! fileName) →
  ∀ acc',
    (forEach (renameItem w fileName old new orderMap) (visited, cfr, isC)
       its s).2 = Some acc' →
    ∀ f, is_Some (acc'.1.2 !! f) ↔ is_Some (cfr !! f).
Proof.
  intros Hkey.
  apply (forEach_inv
           (λ r _, ∀ acc', r = Some acc' →
                           ∀ f, is_Some (acc'.1.2 !! f) ↔ is_Some (cfr !! f))
           (renameItem w fileName old new orderMap) its).
  - intros [[visited' cfr'] isC'] it s' _ Hinv acc' Hacc' f.
    specialize (Hinv _ eq_refl). simpl in Hinv.
    assert (∀ b, is_Some (<[fileName := b]> cfr' !! f) ↔ is_Some (cfr !! f))
      as Hinsert.
    { intros b. destruct (decide (fileName = f)) as [->|Hne].
      - rewrite lookup_insert_eq. split; [done|]. by eexists.
      - rewrite lookup_insert_ne by done. apply Hinv. }
    unfold renameItem in Hacc'. destruct it as [st|text].
    + rewrite run_bind in Hacc'. simpl in Hacc'.
      destruct (rename w st old new _ orderMap isC') as [[st' b] isC''].
      simpl in Hacc'. simplify_eq. apply Hinsert.
    + simpl in Hacc'. simplify_eq. apply Hinsert.
  - intros acc' ?. by simplify_eq.
Qed.

Lemma renameConcepts_keys (entries : list (string * concept.t))
    (acc acc' : gmap string bool * bool) (s : state) :
  (forEach (renameConcept w old new orderMap) acc entries s).2 = Some acc' →
  ∀ f, is_Some (acc'.1 !! f)
       ↔ is_Some (acc.1 !! f)
         ∨ ∃ key c, (key, c) ∈ entries ∧ concept.fileName c = f.
Proof.
  revert acc s.
  induction entries as [|[key c] entries IH]; intros [cfr isC] s Hrun f.
  - simpl in Hrun. simplify_eq. split; [by left|].
    by intros [?|(? & ? & ?%elem_of_nil & _)].
  - rewrite forEach_cons, renameConcept_run in Hrun.
    destruct (forEach _ _ _ s) as [s1 [[[items' cfr'] isC']|]] eqn:Hitems;
      [|done].
    pose proof (renameItems_keys (concept.fileName c) _ _ _ _ s
                  (ltac:(rewrite lookup_insert_eq; by eexists))
                  (items', cfr', isC') (ltac:(by rewrite Hitems)))
      as Hkeys.
    simpl in Hkeys. rewrite (IH _ _ Hrun f). simpl. rewrite Hkeys.
    destruct (decide (concept.fileName c = f)) as [<-|Hne].
    + rewrite lookup_insert_eq. split.
      * intros _. right. exists key, c. split; [by left|done].
      * intros _. left. by eexists.
    + rewrite lookup_insert_ne by done. split.
      * intros [?|(key' & c' & ? & ?)]; [by left|].
        right. exists key', c'. split; [by right|done].
      * intros [?|(key' & c' & [?|?]%elem_of_cons & ?)];
          [by left|by simplify_eq|].
        right. by exists key', c'.
Qed.

Lemma renameItems_specHeap fileName its acc s :
  specHeap (forEach (renameItem w fileName old new orderMap) acc its s).1
  = specHeap s.
Proof.
  apply (forEach_inv (λ _ s', specHeap s' = specHeap s)
           (renameItem w fileName old new orderMap) its); [|done].
  intros [[visited cfr] isC] it s' _ Hinv. unfold renameItem.
  destruct it as [st|text]; [|done].
  rewrite run_bind. simpl.
  by destruct (rename w st old new _ orderMap isC) as [[st' b] isC'].
Qed.

Lemma renameConcepts_specHeap entries acc s :
  specHeap (forEach (renameConcept w old new orderMap) acc entries s).1
  = specHeap s.
Proof.
  apply (forEach_inv (λ _ s', specHeap s' = specHeap s)
           (renameConcept w old new orderMap) entries); [|done].
  intros [cfr isC] [key c] s' _ Hinv. rewrite renameConcept_run.
  match goal with
  | |- context [forEach ?body ?init ?its s'] =>
      pose proof (renameItems_specHeap (concept.fileName c) its init s')
        as Hitems;
      destruct (forEach body init its s') as [s'' [[[items' cfr'] isC']|]]
  end; simpl in *; congruence.
Qed.

End FlagKeys.

(** X19. When [rephraseInSpecsAndConcepts] returns, the flags of the
    specifications have exactly the pointers handed in as keys, and the
    flags of the concept files exactly the file names of the concepts of
    the dictionary; a specification that was not handed in is left as it
    was, and the agent keeps its two steps. *)
Theorem rephraseInSpecsAndConcepts_flag_keys (w : World)
    (agent agent' : rephraseRefactorer) (specs : list loc) (s s' : state)
    (sr : gmap loc bool) (cr : gmap string bool) :
  rangeVisitsAll w →
  rephraseInSpecsAndConcepts w agent specs s = (s', Some (sr, cr, agent')) →
  (∀ p, is_Some (sr !! p) ↔ p ∈ specs)
  ∧ (∀ f, is_Some (cr !! f)
          ↔ ∃ key c, conceptsMap s !! key = Some c ∧ concept.fileName c = f)
  ∧ (∀ p, p ∉ specs → specHeap s' !! p = specHeap s !! p)
  ∧ oldStep agent' = oldStep agent ∧ newStep agent' = newStep agent.
Proof.
  intros Hrange Hrun. unfold rephraseInSpecsAndConcepts in Hrun.
  rewrite run_bind in Hrun.
  destruct (createOrderOfArgs agent) as [orderMap|]; [|done].
  simpl in Hrun. rewrite run_bind in Hrun.
  pose proof (renameSpecs_sameConcepts w (oldStep agent) (newStep agent)
                orderMap ∅ specs s) as Hconcepts.
  destruct (forEach (renameSpec w _ _ orderMap) ∅ specs s)
    as [s1 [sr1|]] eqn:Hspecs; [|done].
  unfold sameConcepts in Hconcepts. simpl in Hconcepts.
  rewrite run_bind in Hrun. simpl in Hrun. rewrite run_bind in Hrun.
  match type of Hrun with
  | context [forEach ?body ?init ?entries s1] =>
      pose proof (renameConcepts_specHeap w (oldStep agent) (newStep agent)
                    orderMap entries init s1) as Hheap;
      pose proof (λ acc', renameConcepts_keys w (oldStep agent)
                            (newStep agent) orderMap entries init acc' s1)
        as Hkeys;
      destruct (forEach body init entries s1) as [s2 [[cr2 isC]|]];
      [|done]
  end.
  rewrite run_ret in Hrun. simpl in Hrun, Hheap. simplify_eq.
  specialize (Hkeys _ eq_refl).
  split; [|split; [|split]].
  - intros p. rewrite (renameSpecs_keys w _ _ _ _ _ _ _ _ Hspecs p).
    rewrite lookup_empty. split; [|by right].
    by intros [[? ?]|?].
  - intros f. rewrite (Hkeys f). simpl. rewrite lookup_empty. split.
    + intros [[? ?]|(key & c & Hentry & ?)]; [done|].
      rewrite (Hrange _ _), elem_of_map_to_list, Hconcepts in Hentry.
      by exists key, c.
    + intros (key & c & Hc & ?). right. exists key, c. split; [|done].
      by rewrite (Hrange _ _), elem_of_map_to_list, Hconcepts.
  - intros p Hp. rewrite Hheap.
    destruct (renameSpecs_others w (oldStep agent) (newStep agent) orderMap
                p specs ∅ s Hp) as [Hsame _].
    by rewrite Hspecs in Hsame.
  - done.
Qed.

(** The sample project: both pointers get a flag, as does the file of the
    concept. *)
Lemma rephraseInSpecsAndConcepts_flag_keys_witness :
  ∃ sr cr,
    (rephraseInSpecsAndConcepts SampleRun.stepUnknown Sample.agent
       SampleRun.specs SampleRun.loaded).2 = Some (sr, cr, Sample.agent)
    ∧ is_Some (sr !! 1%nat) ∧ is_Some (cr !! "bank.cpt").
Proof.
  eexists _, _. split; [vm_compute; reflexivity|].
  edestruct (rephraseInSpecsAndConcepts_flag_keys SampleRun.stepUnknown
               Sample.agent Sample.agent SampleRun.specs SampleRun.loaded)
    as (Hspecs & Hconcepts & _);
    [apply Sample_rangeVisitsAll|vm_compute; reflexivity|].
  split.
  - apply Hspecs. apply (bool_decide_unpack _). by vm_compute.
  - apply Hconcepts. exists "transfer", Sample.transferConcept.
    split; [|reflexivity]. by vm_compute.
Defined.
